(** * mail-reply-smith: the polling pipeline of [src/src/email_poller.py]

    A shallow embedding of the [EmailPoller] class: rule matching, the
    forward composer, the acknowledgment policy, one fetch cycle and the
    polling thread, followed by the properties the specification states
    about them.

    Conventions.
    - A Python [str] is a [string]; every character stands for the code
      point of the same number (0..255).
    - [bytes] are lists of [Byte.byte].
    - The standard library functions the class calls ([email.utils],
      codecs) are the fields of [EmailLib]; every theorem holds for every
      implementation of that interface.
    - The IMAP and SMTP servers are an environment ([cycle_env]) that
      says which calls fail; the calls a cycle makes are recorded, in
      order, as a list of [event]s. *)

From Stdlib Require Import String Ascii List ZArith Lia Bool Arith.
Import ListNotations.
#[local] Set Warnings "-register-all".
Local Open Scope string_scope.

(** ** Python string operations used by the class *)

Module PyStr.

Definition LF : ascii := "010"%char.
Definition CR : ascii := "013"%char.

(** [str.isspace] on one character. *)
Definition isspace (c : ascii) : bool :=
  let n := nat_of_ascii c in
  (((9 <=? n) && (n <=? 13)) || ((28 <=? n) && (n <=? 32))
   || (n =? 133) || (n =? 160))%nat.

(** [str.lower] on one character. *)
Definition lower_char (c : ascii) : ascii :=
  let n := nat_of_ascii c in
  if (((65 <=? n) && (n <=? 90))
      || ((192 <=? n) && (n <=? 222) && negb (n =? 215)))%nat
  then ascii_of_nat (n + 32)
  else c.

Fixpoint lower (s : string) : string :=
  match s with
  | EmptyString => EmptyString
  | String c t => String (lower_char c) (lower t)
  end.

Fixpoint lstrip (s : string) : string :=
  match s with
  | EmptyString => EmptyString
  | String c t => if isspace c then lstrip t else s
  end.

Fixpoint rstrip (s : string) : string :=
  match s with
  | EmptyString => EmptyString
  | String c t =>
      match rstrip t with
      | EmptyString => if isspace c then EmptyString else String c EmptyString
      | t' => String c t'
      end
  end.

(** [s.strip()] *)
Definition strip (s : string) : string := rstrip (lstrip s).

(** [s.replace(old, new)] for a one-character [old]. *)
Fixpoint replace_char (old : ascii) (new : string) (s : string) : string :=
  match s with
  | EmptyString => EmptyString
  | String c t =>
      if Ascii.eqb c old then new ++ replace_char old new t
      else String c (replace_char old new t)
  end.

(** [needle in hay] *)
Fixpoint contains (needle hay : string) : bool :=
  if prefix needle hay then true
  else match hay with
       | EmptyString => false
       | String _ t => contains needle t
       end.

(** [c in s] for one character. *)
Fixpoint mem_char (c : ascii) (s : string) : bool :=
  match s with
  | EmptyString => false
  | String d t => Ascii.eqb d c || mem_char c t
  end.

(** Truth value of a string: [bool(s)]. *)
Definition truthy (s : string) : bool :=
  match s with
  | EmptyString => false
  | _ => true
  end.

(** A value free of carriage returns and line feeds. *)
Definition no_crlf (s : string) : Prop :=
  mem_char LF s = false /\ mem_char CR s = false.

End PyStr.

Import PyStr.

(** ** Messages, rules and configuration *)

Definition bytes : Type := list Byte.byte.

(** What [email.utils], [email.message] and the codecs provide.
    [formataddr] is [None] when it raises (a non-ASCII address);
    [decode charset payload] is [payload.decode(charset, errors="ignore")],
    [None] when the codec is unknown (LookupError);
    [accepts_header name value] is [false] when the assignment
    [fwd[name] = value] raises because the message policy refuses the
    value. *)
Record EmailLib : Type := {
  parseaddr : string -> string * string;
  formataddr : string * string -> option string;
  decode : string -> bytes -> option string;
  accepts_header : string -> string -> bool
}.

(** The header fields and the derived views of one MIME part. *)
Record part_head : Type := {
  headers : list (string * string);
  content_type : string;
  content_charset : option string
}.

(** [email.message.Message]: a leaf with its transfer-decoded payload
    ([get_payload(decode=True)]), or a multipart container. *)
Inductive message : Type :=
| Leaf (h : part_head) (payload : option bytes)
| Multi (h : part_head) (parts : list message).

Definition head (m : message) : part_head :=
  match m with
  | Leaf h _ => h
  | Multi h _ => h
  end.

Definition is_multipart (m : message) : bool :=
  match m with
  | Leaf _ _ => false
  | Multi _ _ => true
  end.

(** [get_payload(decode=True)]: [None] on a multipart container. *)
Definition get_payload (m : message) : option bytes :=
  match m with
  | Leaf _ p => p
  | Multi _ _ => None
  end.

(** [msg.walk()]: the part itself, then its sub-parts, depth first. *)
Fixpoint walk (m : message) : list message :=
  match m with
  | Leaf _ _ => [m]
  | Multi _ ps => m :: flat_map walk ps
  end.

(** [msg.get(name)]: first field of that name, names compared without
    case. *)
Fixpoint lookup_header (hs : list (string * string)) (name : string)
  : option string :=
  match hs with
  | [] => None
  | (k, v) :: t =>
      if String.eqb (lower k) (lower name) then Some v
      else lookup_header t name
  end.

Definition get (m : message) (name : string) : option string :=
  lookup_header (headers (head m)) name.

(** [msg.get(name, default)] *)
Definition get_default (m : message) (name default : string) : string :=
  match get m name with
  | Some v => v
  | None => default
  end.

(** One entry of [filters]; a key that is absent is [None]. *)
Record rule : Type := {
  sender_email_contains : option (list string);
  action : option string;
  forward_to : option string
}.

Record smtp_config : Type := {
  smtp_host : string;
  smtp_port : Z;
  smtp_user : string;
  smtp_password : string
}.

Record imap_config : Type := {
  imap_host : string;
  imap_port : option Z;
  imap_user : string;
  imap_password : string;
  is_fix_163provider_issue : option bool
}.

Record pull_email : Type := {
  transport : string;
  fetch_interval_seconds : Z;
  select_folder : string;
  keep_unseen_count : option Z
}.

Record config : Type := {
  cfg_pull_email : pull_email;
  cfg_imap : imap_config;
  cfg_smtp : smtp_config;
  cfg_filters : option (list rule)
}.

(** ** Header sanitization and rule matching *)

(** [EmailPoller.sanitize_header] *)
Definition sanitize_header (value : string) : string :=
  replace_char CR "" (replace_char LF "" (strip value)).

Section Matching.

Context (L : EmailLib).

(** [EmailPoller._match_rule] *)
Definition _match_rule (msg : message) (r : rule) : bool :=
  let subject := sanitize_header (get_default msg "Subject" "No Subject") in
  let '(original_sender_name, original_sender_email) :=
    parseaddr L (get_default msg "From" "") in
  match sender_email_contains r with
  | Some conditions =>
      if existsb (fun condition => contains condition original_sender_email)
                 conditions
      then true
      else false
  | None => false
  end.

(** The rule loop of [fetch_emails]: the first rule that matches ends
    the loop. *)
Fixpoint first_match (msg : message) (filters : list rule) : option rule :=
  match filters with
  | [] => None
  | r :: rest => if _match_rule msg r then Some r else first_match msg rest
  end.

End Matching.

(** ** Effects: calls to the servers, log lines, exceptions *)

(** A message sequence number as the IMAP server sent it. *)
Definition num : Type := string.

(** The forwarded message [fwd] that [forward_email] builds: the four
    header values it assigns, the text body given to [set_content] and
    the HTML alternative, if one is added. *)
Record outbound : Type := {
  fwd_from : string;
  fwd_to : string;
  fwd_subject : string;
  fwd_reply_to : string;
  fwd_text : string;
  fwd_html : option string
}.

(** The calls that leave the process. *)
Inductive call : Type :=
| ImapConnect (host : string) (port : Z)
| ImapLogin (user : string)
| ImapId
| ImapSelect (folder : string)
| ImapSearchUnseen
| ImapFetchPeek (n : num)
| ImapStoreSeen (n : num)
| ImapClose
| ImapLogout
| SmtpSend (host : string) (port : Z) (user : string) (fwd : outbound)
| Sleep (seconds : nat).

(** The log lines of the class, one constructor per [logger] call. *)
Inductive log_line : Type :=
| LogPollerStarted
| LogPollingError
| LogTransportNotImplemented (transport_type : string)
| LogFetching (transport_type : string)
| LogImapFailed
| LogNoNewEmails
| LogProcessing (count : nat)
| LogMatched (n : num) (subject : string) (r : rule)
| LogForceAck (n : num) (subject : string)
| LogImapClosed
| LogFinished
| LogActionFailed (n : num) (subject : string)
| LogNoForwardTo (r : rule)
| LogActionNotImplemented (r : rule)
| LogIdSkipped
| LogNoUnseen
| LogFetchFailed (n : num)
| LogFetchUnseenFailed
| LogForwarded (forward_to : string)
| LogForwardFailed
| LogAcked (n : num) (subject : string)
| LogAckFailed (n : num) (subject : string)
| LogAlreadyRunning
| LogStopping
| LogStopped.

Inductive event : Type :=
| Did (c : call)
| Failed (c : call)
| Logged (l : log_line).

Inductive result (A : Type) : Type :=
| Ok (a : A)
| Raised.

Arguments Ok {A} a.
Arguments Raised {A}.

(** A computation: the events it produced, and its value or the fact
    that an exception left it. *)
Definition io (A : Type) : Type := list event * result A.

Definition ret {A : Type} (a : A) : io A := ([], Ok a).

Definition bind {A B : Type} (m : io A) (f : A -> io B) : io B :=
  match m with
  | (t, Ok a) => let '(t', r) := f a in ((t ++ t')%list, r)
  | (t, Raised) => (t, Raised)
  end.

Definition emit (l : log_line) : io unit := ([Logged l], Ok tt).

(** An external call that returns, or raises. *)
Definition perform (c : call) (ok : bool) : io unit :=
  if ok then ([Did c], Ok tt) else ([Failed c], Raised).

(** A library function that raises when it has no value. *)
Definition lift {A : Type} (o : option A) : io A :=
  match o with
  | Some a => ret a
  | None => ([], Raised)
  end.

(** [try: m  except Exception: handler] *)
Definition try_except {A : Type} (m : io A) (handler : io A) : io A :=
  match m with
  | (t, Ok a) => (t, Ok a)
  | (t, Raised) => let '(t', r) := handler in ((t ++ t')%list, r)
  end.

(** [try: m  finally: cleanup] *)
Definition try_finally {A : Type} (m : io A) (cleanup : io unit) : io A :=
  let '(t, r) := m in
  match cleanup with
  | (t', Ok _) => ((t ++ t')%list, r)
  | (t', Raised) => ((t ++ t')%list, Raised)
  end.

Declare Scope io_scope.
Delimit Scope io_scope with io.
Notation "x <- m ;; k" := (bind m (fun x => k))
  (at level 61, m at next level, right associativity) : io_scope.
Notation "m ;; k" := (bind m (fun _ => k))
  (at level 61, right associativity) : io_scope.
Local Open Scope io_scope.

Definition events {A : Type} (m : io A) : list event := fst m.
Definition outcome {A : Type} (m : io A) : result A := snd m.

(** What the servers do during one cycle. *)
Record cycle_env : Type := {
  connect_ok : bool;
  login_ok : bool;
  id_ok : bool;
  select_ok : bool;
  search_reply : option (string * list num);
  fetch_reply : num -> option (string * message);
  store_ok : num -> bool;
  close_ok : bool;
  logout_ok : bool;
  send_ok : outbound -> bool
}.

(** The object [imaplib.IMAP4_SSL] returns. *)
Inductive imap_session : Type := Session.

(** ** The methods of one cycle *)

Section Cycle.

Context (L : EmailLib).

Definition is_none {A : Type} (o : option A) : bool :=
  match o with
  | Some _ => false
  | None => true
  end.

(** [x or default] on an optional string. *)
Definition or_default (o : option string) (default : string) : string :=
  match o with
  | Some s => if truthy s then s else default
  | None => default
  end.

(** The footer of [forward_email]. *)
Definition footer (original_sender_name original_sender_email
                  original_subject : string) : string :=
  String LF (String LF "---------- Forwarded message ----------")
  ++ String LF ""
  ++ "From: " ++ original_sender_name ++ " " ++ original_sender_email
  ++ String LF ""
  ++ "Subject: " ++ original_subject ++ String LF "".

(** The loop over [msg.walk()] in [forward_email]; [None] when a
    [decode] raises. *)
Fixpoint collect_parts (parts : list message)
    (text_content html_content : option string)
  : option (option string * option string) :=
  match parts with
  | [] => Some (text_content, html_content)
  | part :: rest =>
      let content_type := content_type (head part) in
      let content_disposition :=
        or_default (get part "Content-Disposition") "" in
      if contains "attachment" (lower content_disposition)
      then collect_parts rest text_content html_content
      else
        match get_payload part with
        | None | Some [] => collect_parts rest text_content html_content
        | Some payload =>
            let charset := or_default (content_charset (head part)) "utf-8" in
            match decode L charset payload with
            | None => None
            | Some decoded =>
                if (content_type =? "text/plain") && is_none text_content
                then collect_parts rest (Some decoded) html_content
                else if (content_type =? "text/html") && is_none html_content
                then collect_parts rest text_content (Some decoded)
                else collect_parts rest text_content html_content
            end
        end
  end.

(** The two contents [forward_email] extracts from the message. *)
Definition extract_contents (msg : message)
  : option (option string * option string) :=
  if is_multipart msg then collect_parts (walk msg) None None
  else
    match get_payload msg with
    | None | Some [] => Some (None, None)
    | Some payload =>
        let charset := or_default (content_charset (head msg)) "utf-8" in
        match decode L charset payload with
        | None => None
        | Some decoded =>
            if content_type (head msg) =? "text/html"
            then Some (None, Some decoded)
            else Some (Some decoded, None)
        end
    end.

(** The four header assignments of [forward_email], in source order;
    [None] when one of them raises. *)
Definition build_headers (from forward_to subject reply_to : string)
  : option (string * string * string * string) :=
  if accepts_header L "From" from
     && accepts_header L "To" forward_to
     && accepts_header L "Subject" subject
     && accepts_header L "Reply-To" reply_to
  then Some (from, forward_to, subject, reply_to)
  else None.

(** [forward_email] up to the SMTP block: the message [fwd], [None]
    when building it raises. *)
Definition compose (msg : message) (smtp : smtp_config) (forward_to : string)
  : option outbound :=
  let user := smtp_user smtp in
  let original_subject :=
    sanitize_header (get_default msg "Subject" "No Subject") in
  let '(original_sender_name, original_sender_email) :=
    parseaddr L (get_default msg "From" "") in
  match formataddr L (sanitize_header original_sender_name, user) with
  | None => None
  | Some from =>
      match build_headers from forward_to ("Fwd: " ++ original_subject)
                          original_sender_email with
      | None => None
      | Some (h_from, h_to, h_subject, h_reply_to) =>
          let foot :=
            footer original_sender_name original_sender_email
                   original_subject in
          match extract_contents msg with
          | None => None
          | Some (text_content, html_content) =>
              let text_content :=
                if is_none text_content && is_none html_content
                then Some "Empty content"
                else text_content in
              let text_body := or_default text_content "" ++ foot in
              Some {| fwd_from := h_from;
                      fwd_to := h_to;
                      fwd_subject := h_subject;
                      fwd_reply_to := h_reply_to;
                      fwd_text := text_body;
                      fwd_html :=
                        if truthy (or_default html_content "")
                        then Some (or_default html_content "" ++ "<br><br>"
                                   ++ replace_char LF "<br>" foot)
                        else None |}
          end
      end
  end.

Context (env : cycle_env).

(** [EmailPoller.forward_email] *)
Definition forward_email (msg : message) (smtp : smtp_config)
    (forward_to : string) : io unit :=
  fwd <- lift (compose msg smtp forward_to) ;;
  try_except
    (perform (SmtpSend (smtp_host smtp) (smtp_port smtp) (smtp_user smtp) fwd)
             (send_ok env fwd) ;;
     emit (LogForwarded forward_to))
    (emit LogForwardFailed).

(** [EmailPoller.ack_email] *)
Definition ack_email (mail : imap_session) (n : num) (msg : message)
  : io unit :=
  let subject := sanitize_header (get_default msg "Subject" "No Subject") in
  try_except
    (perform (ImapStoreSeen n) (store_ok env n) ;;
     emit (LogAcked n subject))
    (emit (LogAckFailed n subject)).

(** [action == 'forward'] where [action = rule.get('action')] *)
Definition is_forward (action : option string) : bool :=
  match action with
  | Some a => a =? "forward"
  | None => false
  end.

(** [EmailPoller._execute_action] *)
Definition _execute_action (msg : message) (r : rule) (mail : imap_session)
    (n : num) (smtp : smtp_config) : io unit :=
  if is_forward (action r)
  then
    match forward_to r with
    | Some forward_to =>
        if truthy forward_to
        then
          try_except
            (forward_email msg smtp forward_to ;;
             ack_email mail n msg)
            (let subject :=
               sanitize_header (get_default msg "Subject" "No Subject") in
             emit (LogActionFailed n subject))
        else emit (LogNoForwardTo r)
    | None => emit (LogNoForwardTo r)
    end
  else emit (LogActionNotImplemented r).

(** The loop over [data[0].split()] in [fetch_unseen_emails]. *)
Fixpoint fetch_all (nums : list num) (email_list : list (num * message))
  : io (list (num * message)) :=
  match nums with
  | [] => ret email_list
  | n :: rest =>
      match fetch_reply env n with
      | None => ([Failed (ImapFetchPeek n)], Raised)
      | Some (status, msg) =>
          ([Did (ImapFetchPeek n)], Ok tt) ;;
          if negb (status =? "OK")
          then emit (LogFetchFailed n) ;; fetch_all rest email_list
          else fetch_all rest (email_list ++ [(n, msg)])%list
      end
  end.

(** [EmailPoller.fetch_unseen_emails]: the session (or [None]) and the
    messages. *)
Definition fetch_unseen_emails (host : string) (port : Z)
    (user password folder : string) (fix_163 : bool)
  : io (option imap_session * list (num * message)) :=
  try_except
    (perform (ImapConnect host port) (connect_ok env) ;;
     let mail := Session in
     perform (ImapLogin user) (login_ok env) ;;
     (if fix_163
      then try_except (perform ImapId (id_ok env)) (emit LogIdSkipped)
      else ret tt) ;;
     perform (ImapSelect folder) (select_ok env) ;;
     match search_reply env with
     | None => ([Failed ImapSearchUnseen], Raised)
     | Some (status, data) =>
         ([Did ImapSearchUnseen], Ok tt) ;;
         if negb (status =? "OK")
         then emit LogNoUnseen ;; ret (Some mail, [])
         else
           email_list <- fetch_all data [] ;;
           ret (Some mail, email_list)
     end)
    (emit LogFetchUnseenFailed ;; ret (None, [])).

(** The loop over [emails] in [fetch_emails], with its two counters;
    their final values are returned. *)
Fixpoint process_emails (total keep_unseen_count : Z) (filters : list rule)
    (smtp : smtp_config) (mail : imap_session)
    (emails : list (num * message))
    (forward_acked_count force_acked_count : Z) : io (Z * Z) :=
  match emails with
  | [] => ret (forward_acked_count, force_acked_count)
  | (n, msg) :: rest =>
      let subject :=
        sanitize_header (get_default msg "Subject" "No Subject") in
      match first_match L msg filters with
      | Some r =>
          emit (LogMatched n subject r) ;;
          _execute_action msg r mail n smtp ;;
          process_emails total keep_unseen_count filters smtp mail rest
                         (forward_acked_count + 1) force_acked_count
      | None =>
          let remaining_emails :=
            (total - (forward_acked_count + force_acked_count))%Z in
          if (remaining_emails >? keep_unseen_count)%Z
          then
            emit (LogForceAck n subject) ;;
            ack_email mail n msg ;;
            process_emails total keep_unseen_count filters smtp mail rest
                           forward_acked_count (force_acked_count + 1)
          else
            process_emails total keep_unseen_count filters smtp mail rest
                           forward_acked_count force_acked_count
      end
  end.

(** [self.config.get('filters', [])] *)
Definition filters_of (cfg : config) : list rule :=
  match cfg_filters cfg with
  | Some f => f
  | None => []
  end.

(** [self.config['pull_email'].get('keep_unseen_count', 100)] *)
Definition keep_unseen_count_of (cfg : config) : Z :=
  match keep_unseen_count (cfg_pull_email cfg) with
  | Some k => k
  | None => 100%Z
  end.

(** The call of [fetch_unseen_emails] in [fetch_emails]. *)
Definition fetch_unseen_for (cfg : config)
  : io (option imap_session * list (num * message)) :=
  let transport_config := cfg_imap cfg in
  fetch_unseen_emails
    (imap_host transport_config)
    (match imap_port transport_config with
     | Some p => p
     | None => 993%Z
     end)
    (imap_user transport_config)
    (imap_password transport_config)
    (select_folder (cfg_pull_email cfg))
    (match is_fix_163provider_issue transport_config with
     | Some b => b
     | None => false
     end).

(** The [try] block of [fetch_emails]; its value tells whether it left
    through [return]. *)
Definition process_fetched (cfg : config) (mail : imap_session)
    (emails : list (num * message)) : io bool :=
  match emails with
  | [] => emit LogNoNewEmails ;; ret true
  | _ =>
      emit (LogProcessing (length emails)) ;;
      process_emails (Z.of_nat (length emails)) (keep_unseen_count_of cfg)
                     (filters_of cfg) (cfg_smtp cfg) mail emails 0%Z 0%Z ;;
      ret false
  end.

(** The [finally] block of [fetch_emails]. *)
Definition close_connection : io unit :=
  perform ImapClose (close_ok env) ;;
  perform ImapLogout (logout_ok env) ;;
  emit LogImapClosed.

(** [EmailPoller.fetch_emails] *)
Definition fetch_emails (cfg : config) : io unit :=
  let transport_type := transport (cfg_pull_email cfg) in
  if negb (lower transport_type =? "imap")
  then emit (LogTransportNotImplemented transport_type)
  else
    emit (LogFetching transport_type) ;;
    fetched <- fetch_unseen_for cfg ;;
    match fetched with
    | (None, _) => emit LogImapFailed
    | (Some mail, emails) =>
        returned <-
          try_finally (process_fetched cfg mail emails) close_connection ;;
        if (returned : bool) then ret tt else emit LogFinished
    end.

End Cycle.

(** ** The poller object and its thread *)

(** The attributes of an [EmailPoller]; [thread] is the index of the
    thread object in the table of threads. *)
Record poller : Type := {
  self_config : config;
  running : bool;
  thread : option nat;
  fetch_interval : Z
}.

(** [EmailPoller.__init__] *)
Definition init (cfg : config) : poller :=
  {| self_config := cfg;
     running := false;
     thread := None;
     fetch_interval := fetch_interval_seconds (cfg_pull_email cfg) |}.

(** Where a thread running [_poll_loop] stands: before its first line,
    at the [while] test, in the [for] loop with so many iterations left,
    or returned. *)
Inductive worker : Type :=
| Entry
| AtLoopHead
| Sleeping (remaining : nat)
| Exited.

(** The process: the poller, every thread started so far, the seconds
    slept so far, the number of cycles run so far and what happened. *)
Record world : Type := {
  self : poller;
  threads : list worker;
  clock : nat;
  cycle_no : nat;
  trace : list event
}.

Definition set_running (b : bool) (p : poller) : poller :=
  {| self_config := self_config p;
     running := b;
     thread := thread p;
     fetch_interval := fetch_interval p |}.

Definition set_thread (t : option nat) (p : poller) : poller :=
  {| self_config := self_config p;
     running := running p;
     thread := t;
     fetch_interval := fetch_interval p |}.

Fixpoint set_nth {A : Type} (i : nat) (x : A) (l : list A) : list A :=
  match l, i with
  | [], _ => []
  | _ :: t, O => x :: t
  | y :: t, S j => y :: set_nth j x t
  end.

Definition log (l : log_line) (w : world) : world :=
  {| self := self w;
     threads := threads w;
     clock := clock w;
     cycle_no := cycle_no w;
     trace := trace w ++ [Logged l] |}.

Definition is_alive (t : nat) (w : world) : bool :=
  match nth_error (threads w) t with
  | Some Exited | None => false
  | Some _ => true
  end.

Section Thread.

Context (L : EmailLib).

(** What the servers do in each cycle, by cycle number. *)
Context (envs : nat -> cycle_env).

(** One step of thread [t] through [EmailPoller._poll_loop].  A whole
    call of [fetch_emails], with the cooldown that follows an exception,
    is one step; so is one iteration of the [for] loop. *)
Definition _poll_loop (t : nat) (w : world) : world :=
  let at_ (pc : worker) (secs : nat) (cycles : nat) (evs : list event) :=
    {| self := self w;
       threads := set_nth t pc (threads w);
       clock := clock w + secs;
       cycle_no := cycle_no w + cycles;
       trace := trace w ++ evs |} in
  match nth_error (threads w) t with
  | Some Entry => at_ AtLoopHead 0 0 [Logged LogPollerStarted]
  | Some AtLoopHead =>
      if running (self w)
      then
        match fetch_emails L (envs (cycle_no w)) (self_config (self w)) with
        | (evs, Ok _) =>
            at_ (Sleeping (Z.to_nat (fetch_interval (self w)))) 0 1 evs
        | (evs, Raised) =>
            at_ AtLoopHead 60 1
                (evs ++ [Logged LogPollingError; Did (Sleep 60)])%list
        end
      else at_ Exited 0 0 []
  | Some (Sleeping O) => at_ AtLoopHead 0 0 []
  | Some (Sleeping (S k)) =>
      if negb (running (self w))
      then at_ AtLoopHead 0 0 []
      else at_ (Sleeping k) 1 0 [Did (Sleep 1)]
  | Some Exited | None => w
  end.

(** Thread [t] runs [n] steps while the main thread does nothing. *)
Fixpoint run (n : nat) (t : nat) (w : world) : world :=
  match n with
  | O => w
  | S m => run m t (_poll_loop t w)
  end.

(** [EmailPoller.start] *)
Definition start (w : world) : world :=
  if running (self w)
  then log LogAlreadyRunning w
  else
    {| self := set_thread (Some (length (threads w)))
                          (set_running true (self w));
       threads := threads w ++ [Entry];
       clock := clock w;
       cycle_no := cycle_no w;
       trace := trace w |}.

(** [thread.join()]: the caller waits while thread [t] runs; [patience]
    bounds the steps waited for. *)
Fixpoint join (patience : nat) (t : nat) (w : world) : world :=
  match patience with
  | O => w
  | S p => if is_alive t w then join p t (_poll_loop t w) else w
  end.

(** [EmailPoller.stop] *)
Definition stop (patience : nat) (w : world) : world :=
  let w := log LogStopping w in
  let w :=
    {| self := set_running false (self w);
       threads := threads w;
       clock := clock w;
       cycle_no := cycle_no w;
       trace := trace w |} in
  let w :=
    match thread (self w) with
    | Some t => if is_alive t w then join patience t w else w
    | None => w
    end in
  log LogStopped w.

End Thread.

(** The process right after [poller = EmailPoller(config)]. *)
Definition boot (cfg : config) : world :=
  {| self := init cfg; threads := []; clock := 0; cycle_no := 0; trace := [] |}.

(** ** Reading a list of events *)

(** Messages flagged \Seen: the STORE commands that succeeded. *)
Fixpoint marked_seen (evs : list event) : list num :=
  match evs with
  | [] => []
  | Did (ImapStoreSeen n) :: rest => n :: marked_seen rest
  | _ :: rest => marked_seen rest
  end.

(** Messages delivered to the relay. *)
Fixpoint sent (evs : list event) : list outbound :=
  match evs with
  | [] => []
  | Did (SmtpSend _ _ _ fwd) :: rest => fwd :: sent rest
  | _ :: rest => sent rest
  end.

(** Messages taken by the force-acknowledgment branch. *)
Fixpoint force_acked (evs : list event) : list num :=
  match evs with
  | [] => []
  | Logged (LogForceAck n _) :: rest => n :: force_acked rest
  | _ :: rest => force_acked rest
  end.

(** Messages taken by the action branch. *)
Fixpoint acted_on (evs : list event) : list num :=
  match evs with
  | [] => []
  | Logged (LogMatched n _ _) :: rest => n :: acted_on rest
  | _ :: rest => acted_on rest
  end.

(** A CLOSE or LOGOUT command, whether it succeeded or not. *)
Definition releases (e : event) : bool :=
  match e with
  | Did ImapClose | Failed ImapClose | Did ImapLogout | Failed ImapLogout =>
      true
  | _ => false
  end.

(** The events [fetch_unseen_emails] can produce. *)
Definition fetch_phase (e : event) : bool :=
  match e with
  | Did c | Failed c =>
      match c with
      | ImapConnect _ _ | ImapLogin _ | ImapId | ImapSelect _
      | ImapSearchUnseen | ImapFetchPeek _ => true
      | _ => false
      end
  | Logged l =>
      match l with
      | LogIdSkipped | LogNoUnseen | LogFetchFailed _
      | LogFetchUnseenFailed => true
      | _ => false
      end
  end.

(** No rule of [filters] matches the message. *)
Definition unmatched (L : EmailLib) (filters : list rule)
    (e : num * message) : bool :=
  is_none (first_match L (snd e) filters).

(** A part the multipart loop of [forward_email] looks at: not flagged
    as an attachment and with a non-empty payload. *)
Definition eligible (part : message) : bool :=
  negb (contains "attachment"
          (lower (or_default (get part "Content-Disposition") "")))
  && match get_payload part with
     | None | Some [] => false
     | Some _ => true
     end.

(** The decoded text of the first eligible part of the given type. *)
Definition first_kept (L : EmailLib) (ctype : string) (parts : list message)
  : option string :=
  match find (fun p => eligible p && (content_type (head p) =? ctype)) parts
  with
  | Some p =>
      match get_payload p with
      | Some payload =>
          decode L (or_default (content_charset (head p)) "utf-8") payload
      | None => None
      end
  | None => None
  end.

(** [forward_email] raises before it reaches the SMTP block:
    [formataddr] raises, a header assignment is refused, or a payload
    names an unknown codec. *)
Definition compose_raises (L : EmailLib) (msg : message) (smtp : smtp_config)
    (forward_to : string) : Prop :=
  let sender := parseaddr L (get_default msg "From" "") in
  let subject := sanitize_header (get_default msg "Subject" "No Subject") in
  let from := formataddr L (sanitize_header (fst sender), smtp_user smtp) in
  from = None
  \/ (exists f, from = Some f
                /\ build_headers L f forward_to ("Fwd: " ++ subject)
                                 (snd sender) = None)
  \/ extract_contents L msg = None.

(** The text that precedes the footer in the plain-text body. *)
Definition text_before_footer (text_content html_content : option string)
  : string :=
  match text_content, html_content with
  | Some t, _ => t
  | None, Some _ => ""
  | None, None => "Empty content"
  end.

(** The message has a part of type text/plain or text/html. *)
Definition has_text_or_html_part (msg : message) : bool :=
  existsb (fun p => (content_type (head p) =? "text/plain")
                    || (content_type (head p) =? "text/html"))
          (walk msg).

Definition with_keep_unseen_count (k : option Z) (cfg : config) : config :=
  {| cfg_pull_email :=
       {| transport := transport (cfg_pull_email cfg);
          fetch_interval_seconds := fetch_interval_seconds (cfg_pull_email cfg);
          select_folder := select_folder (cfg_pull_email cfg);
          keep_unseen_count := k |};
     cfg_imap := cfg_imap cfg;
     cfg_smtp := cfg_smtp cfg;
     cfg_filters := cfg_filters cfg |}.

(** ** Sample data for the worked examples *)

Module Sample.

(** [len(value.splitlines())] for characters below 256. *)
Definition is_line_break (c : ascii) : bool :=
  let n := nat_of_ascii c in
  (((10 <=? n) && (n <=? 13)) || ((28 <=? n) && (n <=? 30)) || (n =? 133))%nat.

Fixpoint count_lines (in_line : bool) (s : string) : nat :=
  match s with
  | EmptyString => if in_line then 1 else 0
  | String c t =>
      if is_line_break c
      then
        match t with
        | String d t' =>
            if Ascii.eqb c CR && Ascii.eqb d LF
            then S (count_lines false t')
            else S (count_lines false t)
        | EmptyString => 1
        end
      else count_lines true t
  end.

(** An implementation of [EmailLib] that answers as CPython 3.11 does on
    the inputs of the examples: a From field that is one bare address
    without surrounding blanks, a display name without special
    characters, an ASCII payload, and the default message policy, which
    refuses a header value of more than one line. *)
Definition lib : EmailLib :=
  {| parseaddr := fun addr => ("", addr);
     formataddr := fun pair =>
       Some (if truthy (fst pair)
             then fst pair ++ " <" ++ snd pair ++ ">"
             else snd pair);
     decode := fun _ payload => Some (string_of_list_byte payload);
     accepts_header := fun _ value => (count_lines false value <=? 1)%nat |}.

Definition smtp : smtp_config :=
  {| smtp_host := "smtp.x"; smtp_port := 587;
     smtp_user := "relay@x"; smtp_password := "secret" |}.

Definition imap : imap_config :=
  {| imap_host := "imap.x"; imap_port := None;
     imap_user := "me@x"; imap_password := "secret";
     is_fix_163provider_issue := None |}.

Definition boss_rule : rule :=
  {| sender_email_contains := Some ["boss@co"];
     action := Some "forward";
     forward_to := Some "me@x" |}.

Definition cfg (interval : Z) (keep : option Z) (filters : list rule)
  : config :=
  {| cfg_pull_email :=
       {| transport := "imap";
          fetch_interval_seconds := interval;
          select_folder := "INBOX";
          keep_unseen_count := keep |};
     cfg_imap := imap;
     cfg_smtp := smtp;
     cfg_filters := Some filters |}.

(** A single-part text message. *)
Definition text_msg (from subject body : string) : message :=
  Leaf {| headers := [("From", from); ("Subject", subject)];
          content_type := "text/plain";
          content_charset := None |}
       (Some (list_byte_of_string body)).

Definition from_boss : message := text_msg "boss@co" "Report" "see attached".
Definition from_other : message := text_msg "news@shop" "Sale" "buy now".

(** A single-part message that is a PDF file. *)
Definition pdf_msg : message :=
  Leaf {| headers := [("From", "boss@co"); ("Subject", "Scan")];
          content_type := "application/pdf";
          content_charset := None |}
       (Some (list_byte_of_string "%PDF-1.4")).

(** A single-part message that is a text file sent as an attachment. *)
Definition attached_msg : message :=
  Leaf {| headers := [("From", "boss@co"); ("Subject", "Notes");
                      ("Content-Disposition",
                       "attachment; filename=notes.txt")];
          content_type := "text/plain";
          content_charset := None |}
       (Some (list_byte_of_string "private notes")).

(** Servers that answer every call; the unseen messages are given with
    their numbers. *)
Definition servers (mailbox : list (num * message)) : cycle_env :=
  {| connect_ok := true;
     login_ok := true;
     id_ok := true;
     select_ok := true;
     search_reply := Some ("OK", map fst mailbox);
     fetch_reply := fun n =>
       match find (fun e => String.eqb (fst e) n) mailbox with
       | Some e => Some ("OK", snd e)
       | None => None
       end;
     store_ok := fun _ => true;
     close_ok := true;
     logout_ok := true;
     send_ok := fun _ => true |}.

(** The same servers with the relay refusing every message. *)
Definition relay_down (mailbox : list (num * message)) : cycle_env :=
  {| connect_ok := true;
     login_ok := true;
     id_ok := true;
     select_ok := true;
     search_reply := search_reply (servers mailbox);
     fetch_reply := fetch_reply (servers mailbox);
     store_ok := fun _ => true;
     close_ok := true;
     logout_ok := true;
     send_ok := fun _ => false |}.

(** The mailbox accepts the connection and lists the messages, then the
    connection breaks at the first FETCH. *)
Definition fetch_breaks (nums : list num) : cycle_env :=
  {| connect_ok := true;
     login_ok := true;
     id_ok := true;
     select_ok := true;
     search_reply := Some ("OK", nums);
     fetch_reply := fun _ => None;
     store_ok := fun _ => true;
     close_ok := true;
     logout_ok := true;
     send_ok := fun _ => true |}.

(** The mailbox server cannot be reached. *)
Definition unreachable : cycle_env :=
  {| connect_ok := false;
     login_ok := false;
     id_ok := false;
     select_ok := false;
     search_reply := None;
     fetch_reply := fun _ => None;
     store_ok := fun _ => false;
     close_ok := false;
     logout_ok := false;
     send_ok := fun _ => false |}.

End Sample.

(** ** Vocabulary for the further properties *)

(** The server answered the FETCH of message [n]. *)
Definition has_reply (env : cycle_env) (n : num) : bool :=
  negb (is_none (fetch_reply env n)).

(** The messages of a search result whose FETCH status is OK, in the
    order of the search result. *)
Fixpoint kept_messages (env : cycle_env) (nums : list num)
  : list (num * message) :=
  match nums with
  | [] => []
  | n :: rest =>
      match fetch_reply env n with
      | Some (status, msg) =>
          if status =? "OK" then (n, msg) :: kept_messages env rest
          else kept_messages env rest
      | None => kept_messages env rest
      end
  end.

(** Every call of [fetch_unseen_emails] outside the inner [try] of the
    ID command returns. *)
Definition fetch_succeeds (env : cycle_env) : bool :=
  connect_ok env && login_ok env && select_ok env
  && match search_reply env with
     | None => false
     | Some (status, data) =>
         if status =? "OK" then forallb (has_reply env) data else true
     end.

(** The rule makes [_execute_action] call [forward_email]. *)
Definition forwards (r : rule) : bool :=
  is_forward (action r)
  && match forward_to r with
     | Some ft => truthy ft
     | None => false
     end.

(** The part has a non-empty payload whose charset names an unknown
    codec: [payload.decode(charset, errors="ignore")] raises. *)
Definition decode_fails (L : EmailLib) (part : message) : bool :=
  match get_payload part with
  | Some (b :: payload) =>
      is_none (decode L (or_default (content_charset (head part)) "utf-8")
                      (b :: payload))
  | _ => false
  end.

(** No character of the string satisfies [isspace] at either end. *)
Definition trimmed (s : string) : Prop :=
  lstrip s = s /\ rstrip s = s.


(** The worlds the process can be in: after [EmailPoller(config)], any
    sequence of [start], [stop] (with a [join] that is waited for) and
    steps of the threads. *)
Inductive reachable (L : EmailLib) (envs : nat -> cycle_env)
  : world -> Prop :=
| reach_boot (cfg : config) : reachable L envs (boot cfg)
| reach_start (w : world) :
    reachable L envs w -> reachable L envs (start w)
| reach_stop (patience : nat) (w : world) :
    2 <= patience ->
    reachable L envs w -> reachable L envs (stop L envs patience w)
| reach_step (t : nat) (w : world) :
    reachable L envs w -> reachable L envs (_poll_loop L envs t w).

(** [main] of [main.py] after the configuration is loaded: the poller
    is built and started, the main thread idles while the polling
    thread takes [steps] steps, then the interrupt arrives and the
    [finally] clause stops the poller.  The log lines [main] writes
    itself are not recorded. *)
Definition main (L : EmailLib) (envs : nat -> cycle_env) (cfg : config)
    (steps patience : nat) : world :=
  let poller := boot cfg in
  let started := start poller in
  let interrupted := run L envs steps 0 started in
  stop L envs patience interrupted.

(** * Properties *)

(** ** Strings *)

Lemma prefix_iff (p s : string) :
  prefix p s = true <-> exists rest, s = p ++ rest.
Proof.
  revert s; induction p as [|c p IH]; intros s; simpl.
  - split; [intros _; now exists s | intros _; now destruct s].
  - destruct s as [|d s].
    + split; [discriminate | intros [rest H]; discriminate].
    + simpl. destruct (ascii_dec c d) as [->|Hcd].
      * rewrite IH. split; intros [rest H]; exists rest.
        -- now rewrite H.
        -- now inversion H.
      * split; [discriminate | intros [rest H]; inversion H; congruence].
Qed.

Lemma contains_unfold (needle hay : string) :
  contains needle hay =
  if prefix needle hay then true
  else match hay with
       | EmptyString => false
       | String _ t => contains needle t
       end.
Proof. now destruct hay. Qed.

Lemma contains_iff (needle hay : string) :
  contains needle hay = true <->
  exists before after, hay = before ++ needle ++ after.
Proof.
  induction hay as [|c hay IH]; rewrite contains_unfold.
  - destruct (prefix needle "") eqn:Hp.
    + apply prefix_iff in Hp as [rest Hp].
      split; [intros _; now exists "", rest | reflexivity].
    + split; [discriminate |].
      intros [[|b before] [after H]]; simpl in H; [|discriminate].
      assert (prefix needle "" = true) by (apply prefix_iff; now exists after).
      congruence.
  - destruct (prefix needle (String c hay)) eqn:Hp.
    + apply prefix_iff in Hp as [rest Hp].
      split; [intros _; now exists "", rest | reflexivity].
    + rewrite IH. split.
      * intros (before & after & ->). now exists (String c before), after.
      * intros ([|b before] & after & H); simpl in H.
        -- assert (prefix needle (String c hay) = true)
             by (apply prefix_iff; now exists after).
           congruence.
        -- inversion H; subst. now exists before, after.
Qed.

Lemma mem_char_app (c : ascii) (a b : string) :
  mem_char c (a ++ b) = mem_char c a || mem_char c b.
Proof.
  induction a as [|d a IH]; simpl; [reflexivity|].
  now rewrite IH, orb_assoc.
Qed.

Lemma mem_char_removed (c : ascii) (s : string) :
  mem_char c (replace_char c "" s) = false.
Proof.
  induction s as [|d s IH]; simpl; [reflexivity|].
  destruct (Ascii.eqb d c) eqn:E; simpl; [exact IH|].
  now rewrite E.
Qed.

Lemma mem_char_not_added (c old : ascii) (s : string) :
  mem_char c s = false -> mem_char c (replace_char old "" s) = false.
Proof.
  induction s as [|d s IH]; simpl; [reflexivity|].
  intros H. apply orb_false_iff in H as [Hd Hs].
  destruct (Ascii.eqb d old); simpl; [now apply IH|].
  now rewrite Hd, IH.
Qed.

Lemma sanitize_header_no_crlf (value : string) :
  no_crlf (sanitize_header value).
Proof.
  unfold no_crlf, sanitize_header. split.
  - apply mem_char_not_added, mem_char_removed.
  - apply mem_char_removed.
Qed.

Example contains_is_case_sensitive :
  contains "Boss" "boss@co" = false /\ contains "boss" "boss@co" = true.
Proof. split; reflexivity. Qed.

(** ** The rule matcher *)

Section MatcherFacts.

Context (L : EmailLib).

Lemma _match_rule_iff (msg : message) (r : rule) :
  _match_rule L msg r = true <->
  exists conditions condition before after,
    sender_email_contains r = Some conditions
    /\ In condition conditions
    /\ snd (parseaddr L (get_default msg "From" ""))
       = before ++ condition ++ after.
Proof.
  unfold _match_rule.
  destruct (parseaddr L (get_default msg "From" "")) as [name addr]; simpl.
  destruct (sender_email_contains r) as [conds|].
  - destruct (existsb (fun c => contains c addr) conds) eqn:E.
    + apply existsb_exists in E as (c & Hin & Hc).
      apply contains_iff in Hc as (b & a & Hc).
      split; [intros _ | reflexivity].
      now exists conds, c, b, a.
    + split; [discriminate|].
      intros (conds' & c & b & a & Hs & Hin & Hc).
      injection Hs as <-.
      assert (existsb (fun c => contains c addr) conds = true).
      { apply existsb_exists. exists c. split; [assumption|].
        apply contains_iff. now exists b, a. }
      congruence.
  - split; [discriminate|].
    intros (conds' & c & b & a & Hs & _). discriminate.
Qed.

Lemma first_match_some (msg : message) (filters : list rule) (r : rule) :
  first_match L msg filters = Some r <->
  exists before after,
    filters = (before ++ r :: after)%list
    /\ _match_rule L msg r = true
    /\ Forall (fun r' => _match_rule L msg r' = false) before.
Proof.
  induction filters as [|r0 rest IH]; simpl.
  - split; [discriminate|].
    intros ([|x before] & after & H & _); discriminate.
  - destruct (_match_rule L msg r0) eqn:E.
    + split.
      * intros H. injection H as <-. now exists [], rest.
      * intros ([|x before] & after & H & Hr & Hb); simpl in H.
        -- now inversion H.
        -- inversion H; subst. inversion Hb; congruence.
    + rewrite IH. split.
      * intros (before & after & -> & Hr & Hb).
        exists (r0 :: before), after. repeat split; auto.
      * intros ([|x before] & after & H & Hr & Hb); simpl in H.
        -- inversion H; subst. congruence.
        -- inversion H; subst. inversion Hb; subst.
           now exists before, after.
Qed.

Lemma first_match_none (msg : message) (filters : list rule) :
  first_match L msg filters = None <->
  Forall (fun r' => _match_rule L msg r' = false) filters.
Proof.
  induction filters as [|r0 rest IH]; simpl.
  - split; auto.
  - destruct (_match_rule L msg r0) eqn:E.
    + split; [discriminate|]. intros H; inversion H; congruence.
    + rewrite IH. split; [auto | intros H; now inversion H].
Qed.

End MatcherFacts.

(** C6. The rule loop returns the first rule, in list order, that the
    message matches, and nothing when no rule matches or the list is
    empty.  A rule matches exactly when it has a [sender_email_contains]
    list one of whose entries occurs, character for character, inside
    the address part that [parseaddr] extracts from the From field.  The
    matcher is a function of the message and the rules only: it takes no
    server state and produces no events. *)
Theorem C6_first_matching_rule :
  forall (L : EmailLib) (msg : message) (filters : list rule),
    (forall r,
        first_match L msg filters = Some r <->
        exists before after,
          filters = (before ++ r :: after)%list
          /\ _match_rule L msg r = true
          /\ Forall (fun r' => _match_rule L msg r' = false) before)
    /\ (first_match L msg filters = None <->
        Forall (fun r' => _match_rule L msg r' = false) filters)
    /\ first_match L msg [] = None
    /\ (forall r,
           _match_rule L msg r = true <->
           exists conditions condition before after,
             sender_email_contains r = Some conditions
             /\ In condition conditions
             /\ snd (parseaddr L (get_default msg "From" ""))
                = before ++ condition ++ after).
Proof.
  intros L msg filters. split; [|split; [|split]].
  - intros r. apply first_match_some.
  - apply first_match_none.
  - reflexivity.
  - intros r. apply _match_rule_iff.
Qed.

(** ** The forward composer *)

Section ComposerFacts.

Context (L : EmailLib).

Lemma compose_cases (msg : message) (smtp : smtp_config) (ft : string) :
  match compose L msg smtp ft with
  | None => compose_raises L msg smtp ft
  | Some fwd =>
      let sender := parseaddr L (get_default msg "From" "") in
      let subject :=
        sanitize_header (get_default msg "Subject" "No Subject") in
      exists text html,
        extract_contents L msg = Some (text, html)
        /\ formataddr L (sanitize_header (fst sender), smtp_user smtp)
           = Some (fwd_from fwd)
        /\ fwd_to fwd = ft
        /\ fwd_subject fwd = "Fwd: " ++ subject
        /\ fwd_reply_to fwd = snd sender
        /\ fwd_text fwd
           = text_before_footer text html
             ++ footer (fst sender) (snd sender) subject
  end.
Proof.
  unfold compose, compose_raises.
  destruct (parseaddr L (get_default msg "From" "")) as [name addr]; simpl.
  destruct (formataddr L (sanitize_header name, smtp_user smtp)) as [from|];
    [|now left].
  destruct (build_headers L from ft _ addr) as [[[[hf ht] hs] hr]|] eqn:Hb;
    [|right; left; now exists from].
  unfold build_headers in Hb.
  destruct (_ && _) in Hb; [|discriminate].
  injection Hb as <- <- <- <-.
  destruct (extract_contents L msg) as [[text html]|]; [|now right; right].
  exists text, html. simpl.
  repeat split.
  destruct text as [[|c t]|], html as [h|]; reflexivity.
Qed.

Lemma first_kept_cons (ctype : string) (p : message) (rest : list message) :
  first_kept L ctype (p :: rest) =
  if eligible p && (content_type (head p) =? ctype)
  then match get_payload p with
       | Some payload =>
           decode L (or_default (content_charset (head p)) "utf-8") payload
       | None => None
       end
  else first_kept L ctype rest.
Proof.
  unfold first_kept. simpl.
  now destruct (eligible p && (content_type (head p) =? ctype)).
Qed.

Lemma collect_parts_cons (p : message) (rest : list message)
    (text html : option string) :
  collect_parts L (p :: rest) text html =
  if eligible p
  then
    match get_payload p with
    | Some payload =>
        match decode L (or_default (content_charset (head p)) "utf-8")
                     payload with
        | None => None
        | Some decoded =>
            if (content_type (head p) =? "text/plain") && is_none text
            then collect_parts L rest (Some decoded) html
            else if (content_type (head p) =? "text/html") && is_none html
            then collect_parts L rest text (Some decoded)
            else collect_parts L rest text html
        end
    | None => collect_parts L rest text html
    end
  else collect_parts L rest text html.
Proof.
  unfold eligible. simpl.
  destruct (contains "attachment" _); simpl; [reflexivity|].
  now destruct (get_payload p) as [[|b payload]|].
Qed.

Lemma plain_is_not_html (ctype : string) :
  (ctype =? "text/plain") = true -> (ctype =? "text/html") = false.
Proof. intros H. apply String.eqb_eq in H. now subst. Qed.

Lemma collect_parts_first_wins (parts : list message)
    (text html text' html' : option string) :
  collect_parts L parts text html = Some (text', html') ->
  text' = match text with
          | Some _ => text
          | None => first_kept L "text/plain" parts
          end
  /\ html' = match html with
             | Some _ => html
             | None => first_kept L "text/html" parts
             end.
Proof.
  revert text html.
  induction parts as [|p rest IH]; intros text html H.
  - simpl in H. injection H as <- <-.
    now destruct text, html.
  - rewrite collect_parts_cons in H.
    rewrite !first_kept_cons.
    destruct (eligible p) eqn:El; simpl; [|now apply IH].
    destruct (get_payload p) as [payload|] eqn:Ep0.
    2:{ unfold eligible in El. rewrite Ep0, andb_false_r in El.
        discriminate. }
    destruct (decode L _ payload) as [decoded|]; [|discriminate].
    destruct (content_type (head p) =? "text/plain") eqn:Ep.
    + rewrite (plain_is_not_html _ Ep) in *. simpl in H.
      destruct text as [t|]; simpl in H; apply IH in H; exact H.
    + simpl in H.
      destruct (content_type (head p) =? "text/html") eqn:Eh; simpl in H.
      * destruct html as [h|]; simpl in H; apply IH in H; exact H.
      * now apply IH.
Qed.

Lemma footer_not_empty (body name addr subject : string) :
  body ++ footer name addr subject <> "".
Proof. now destruct body. Qed.

End ComposerFacts.

(** C5 (as the code has it).  Of the header values of the forwarded
    message, the Subject and the display name given to [formataddr] for
    the From field contain no carriage return and no line feed, whatever
    the Subject and From fields of the inbound message contain.  The To
    value is the configured destination and the Reply-To value is the
    address [parseaddr] returns, both exactly as given.  When no message
    is built, [forward_email] raised before sending. *)
Theorem C5_sanitized_header_values :
  forall (L : EmailLib) (msg : message) (smtp : smtp_config)
         (forward_to : string),
    match compose L msg smtp forward_to with
    | Some fwd =>
        no_crlf (fwd_subject fwd)
        /\ (exists name,
               no_crlf name
               /\ formataddr L (name, smtp_user smtp) = Some (fwd_from fwd))
        /\ fwd_to fwd = forward_to
        /\ fwd_reply_to fwd = snd (parseaddr L (get_default msg "From" ""))
    | None => compose_raises L msg smtp forward_to
    end.
Proof.
  intros L msg smtp ft.
  pose proof (compose_cases L msg smtp ft) as H.
  destruct (compose L msg smtp ft) as [fwd|]; [|exact H].
  destruct H as (text & html & _ & Hfrom & Hto & Hsubj & Hreply & _).
  repeat split; try assumption.
  - rewrite Hsubj, mem_char_app.
    now rewrite (proj1 (sanitize_header_no_crlf _)).
  - rewrite Hsubj, mem_char_app.
    now rewrite (proj2 (sanitize_header_no_crlf _)).
  - eexists. split; [apply sanitize_header_no_crlf | exact Hfrom].
Qed.

(** C5 as stated fails: a configured destination that ends in a line
    feed is accepted by the message policy and used as the To value. *)
Lemma C5_counterexample :
  exists fwd,
    compose Sample.lib Sample.from_boss Sample.smtp ("me@x" ++ String LF "")
    = Some fwd
    /\ ~ no_crlf (fwd_to fwd).
Proof.
  eexists. split; [reflexivity|].
  intros [H _]. discriminate H.
Qed.

(** C7 (as the code has it).  For a multipart message the text content
    is the decoded payload of the first part, in [walk] order, that is
    not flagged as an attachment, has a non-empty payload and has type
    text/plain, and the HTML content is chosen likewise among the
    text/html parts.  For a single-part message a non-empty payload is
    the HTML content when the type is text/html and the text content
    otherwise, whatever its type and disposition.  The plain-text body
    is the text content, or "Empty content" when there is neither
    content, or nothing when there is only HTML, followed by the footer;
    it is never empty.  When no message is built, [forward_email] raised
    before sending. *)
Theorem C7_kept_parts_and_footer :
  forall (L : EmailLib) (msg : message) (smtp : smtp_config)
         (forward_to : string),
    match compose L msg smtp forward_to with
    | Some fwd =>
        let sender := parseaddr L (get_default msg "From" "") in
        let subject :=
          sanitize_header (get_default msg "Subject" "No Subject") in
        exists text html,
          extract_contents L msg = Some (text, html)
          /\ (is_multipart msg = true ->
              text = first_kept L "text/plain" (walk msg)
              /\ html = first_kept L "text/html" (walk msg))
          /\ (is_multipart msg = false ->
              match get_payload msg with
              | None | Some [] => text = None /\ html = None
              | Some payload =>
                  let decoded :=
                    decode L (or_default (content_charset (head msg)) "utf-8")
                           payload in
                  if content_type (head msg) =? "text/html"
                  then text = None /\ html = decoded
                  else text = decoded /\ html = None
              end)
          /\ fwd_text fwd
             = text_before_footer text html
               ++ footer (fst sender) (snd sender) subject
          /\ fwd_text fwd <> ""
    | None => compose_raises L msg smtp forward_to
    end.
Proof.
  intros L msg smtp ft.
  pose proof (compose_cases L msg smtp ft) as H.
  destruct (compose L msg smtp ft) as [fwd|]; [|exact H].
  destruct H as (text & html & Hex & _ & _ & _ & _ & Htext).
  exists text, html. split; [exact Hex|].
  split; [|split; [|split]].
  - intros Hm. unfold extract_contents in Hex. rewrite Hm in Hex.
    now apply collect_parts_first_wins in Hex.
  - intros Hm. unfold extract_contents in Hex. rewrite Hm in Hex.
    destruct (get_payload msg) as [[|b payload]|].
    + now injection Hex as <- <-.
    + destruct (decode L _ (b :: payload)) as [decoded|]; [|discriminate].
      simpl. destruct (content_type (head msg) =? "text/html");
        now injection Hex as <- <-.
    + now injection Hex as <- <-.
  - exact Htext.
  - rewrite Htext. apply footer_not_empty.
Qed.

(** C7 as stated fails on single-part messages: a PDF message has no
    text/plain and no text/html part, and a text file sent as an
    attachment leaves nothing once attachments are skipped, yet in both
    cases the payload becomes the text body instead of the
    placeholder. *)
Lemma C7_counterexample :
  has_text_or_html_part Sample.pdf_msg = false
  /\ (exists fwd,
         compose Sample.lib Sample.pdf_msg Sample.smtp "me@x" = Some fwd
         /\ fwd_text fwd = "%PDF-1.4" ++ footer "" "boss@co" "Scan"
         /\ fwd_text fwd <> "Empty content" ++ footer "" "boss@co" "Scan")
  /\ existsb eligible (walk Sample.attached_msg) = false
  /\ (exists fwd,
         compose Sample.lib Sample.attached_msg Sample.smtp "me@x" = Some fwd
         /\ fwd_text fwd = "private notes" ++ footer "" "boss@co" "Notes"
         /\ fwd_text fwd <> "Empty content" ++ footer "" "boss@co" "Notes").
Proof.
  split; [reflexivity|].
  split; [eexists; split; [reflexivity|]; split; [reflexivity|discriminate]|].
  split; [reflexivity|].
  eexists; split; [reflexivity|]; split; [reflexivity|discriminate].
Qed.

(** ** One cycle *)

Lemma marked_seen_app (a b : list event) :
  marked_seen (a ++ b) = (marked_seen a ++ marked_seen b)%list.
Proof.
  induction a as [|e a IH]; [reflexivity|].
  destruct e as [c|c|l]; try destruct c; try destruct l; simpl;
    now rewrite ?IH.
Qed.

Lemma force_acked_app (a b : list event) :
  force_acked (a ++ b) = (force_acked a ++ force_acked b)%list.
Proof.
  induction a as [|e a IH]; [reflexivity|].
  destruct e as [c|c|l]; try destruct c; try destruct l; simpl;
    now rewrite ?IH.
Qed.

Lemma acted_on_app (a b : list event) :
  acted_on (a ++ b) = (acted_on a ++ acted_on b)%list.
Proof.
  induction a as [|e a IH]; [reflexivity|].
  destruct e as [c|c|l]; try destruct c; try destruct l; simpl;
    now rewrite ?IH.
Qed.

Lemma sent_app (a b : list event) :
  sent (a ++ b) = (sent a ++ sent b)%list.
Proof.
  induction a as [|e a IH]; [reflexivity|].
  destruct e as [c|c|l]; try destruct c; try destruct l; simpl;
    now rewrite ?IH.
Qed.

Section CycleFacts.

Context (L : EmailLib) (env : cycle_env).

Lemma ack_email_eq (mail : imap_session) (n : num) (msg : message) :
  ack_email env mail n msg =
  let subject := sanitize_header (get_default msg "Subject" "No Subject") in
  if store_ok env n
  then ([Did (ImapStoreSeen n); Logged (LogAcked n subject)], Ok tt)
  else ([Failed (ImapStoreSeen n); Logged (LogAckFailed n subject)], Ok tt).
Proof.
  unfold ack_email, perform. now destruct (store_ok env n).
Qed.

Lemma forward_email_eq (msg : message) (smtp : smtp_config) (ft : string) :
  forward_email L env msg smtp ft =
  match compose L msg smtp ft with
  | None => ([], Raised)
  | Some fwd =>
      let c := SmtpSend (smtp_host smtp) (smtp_port smtp) (smtp_user smtp)
                        fwd in
      if send_ok env fwd
      then ([Did c; Logged (LogForwarded ft)], Ok tt)
      else ([Failed c; Logged LogForwardFailed], Ok tt)
  end.
Proof.
  unfold forward_email, perform.
  destruct (compose L msg smtp ft) as [fwd|]; [|reflexivity].
  simpl. now destruct (send_ok env fwd).
Qed.

Lemma _execute_action_forward (msg : message) (r : rule)
    (mail : imap_session) (n : num) (smtp : smtp_config) (ft : string) :
  is_forward (action r) = true ->
  forward_to r = Some ft ->
  truthy ft = true ->
  _execute_action L env msg r mail n smtp =
  match compose L msg smtp ft with
  | None =>
      ([Logged (LogActionFailed n
                  (sanitize_header (get_default msg "Subject" "No Subject")))],
       Ok tt)
  | Some fwd =>
      ((fst (forward_email L env msg smtp ft)
        ++ fst (ack_email env mail n msg))%list, Ok tt)
  end.
Proof.
  intros Ha Hf Ht. unfold _execute_action. rewrite Ha, Hf, Ht.
  rewrite forward_email_eq, ack_email_eq.
  destruct (compose L msg smtp ft) as [fwd|]; [|reflexivity].
  simpl. now destruct (send_ok env fwd), (store_ok env n).
Qed.

(** The shape of what [_execute_action] does: it never raises, it
    issues STORE for its own message only, and it writes none of the
    lines of the cycle loop. *)
Lemma _execute_action_shape (msg : message) (r : rule)
    (mail : imap_session) (n : num) (smtp : smtp_config) :
  exists evs,
    _execute_action L env msg r mail n smtp = (evs, Ok tt)
    /\ force_acked evs = []
    /\ acted_on evs = []
    /\ (forall x, In x (marked_seen evs) -> x = n)
    /\ existsb releases evs = false.
Proof.
  unfold _execute_action.
  destruct (is_forward (action r));
    [|eexists; split; [reflexivity|]; repeat split; simpl; tauto].
  destruct (forward_to r) as [ft|];
    [|eexists; split; [reflexivity|]; repeat split; simpl; tauto].
  destruct (truthy ft);
    [|eexists; split; [reflexivity|]; repeat split; simpl; tauto].
  rewrite forward_email_eq, ack_email_eq.
  destruct (compose L msg smtp ft) as [fwd|];
    [|eexists; split; [reflexivity|]; repeat split; simpl; tauto].
  simpl.
  destruct (send_ok env fwd), (store_ok env n);
    (eexists; split; [reflexivity|]; repeat split; simpl;
     intuition congruence).
Qed.

Lemma ack_email_shape (mail : imap_session) (n : num) (msg : message) :
  exists evs,
    ack_email env mail n msg = (evs, Ok tt)
    /\ force_acked evs = []
    /\ acted_on evs = []
    /\ (forall x, In x (marked_seen evs) -> x = n)
    /\ existsb releases evs = false.
Proof.
  rewrite ack_email_eq. simpl.
  destruct (store_ok env n);
    (eexists; split; [reflexivity|]; repeat split; simpl;
     intuition congruence).
Qed.

Lemma process_emails_cons (total keep : Z) (filters : list rule)
    (smtp : smtp_config) (mail : imap_session) (n : num) (msg : message)
    (rest : list (num * message)) (fa fo : Z) :
  process_emails L env total keep filters smtp mail ((n, msg) :: rest) fa fo =
  let subject := sanitize_header (get_default msg "Subject" "No Subject") in
  match first_match L msg filters with
  | Some r =>
      let tail := process_emails L env total keep filters smtp mail rest
                                 (fa + 1) fo in
      ((Logged (LogMatched n subject r)
        :: fst (_execute_action L env msg r mail n smtp) ++ fst tail)%list,
       snd tail)
  | None =>
      if (total - (fa + fo) >? keep)%Z
      then
        let tail := process_emails L env total keep filters smtp mail rest
                                   fa (fo + 1) in
        ((Logged (LogForceAck n subject)
          :: fst (ack_email env mail n msg) ++ fst tail)%list,
         snd tail)
      else process_emails L env total keep filters smtp mail rest fa fo
  end.
Proof.
  simpl. destruct (first_match L msg filters) as [r|].
  - destruct (_execute_action_shape msg r mail n smtp) as (evs & -> & _).
    simpl. now destruct (process_emails _ _ _ _ _ _ _ rest (fa + 1)%Z fo).
  - destruct (total - (fa + fo) >? keep)%Z; [|reflexivity].
    destruct (ack_email_shape mail n msg) as (evs & -> & _).
    simpl. now destruct (process_emails _ _ _ _ _ _ _ rest fa (fo + 1)%Z).
Qed.

Lemma process_emails_returns (total keep : Z) (filters : list rule)
    (smtp : smtp_config) (mail : imap_session)
    (emails : list (num * message)) (fa fo : Z) :
  exists counts,
    snd (process_emails L env total keep filters smtp mail emails fa fo)
    = Ok counts.
Proof.
  revert fa fo. induction emails as [|[n msg] rest IH]; intros fa fo.
  - now eexists.
  - rewrite process_emails_cons. simpl.
    destruct (first_match L msg filters); [apply IH|].
    destruct (total - (fa + fo) >? keep)%Z; apply IH.
Qed.

(** The force-acknowledged messages of the loop: the unmatched ones
    among the first [total - keep - (fa + fo)] that remain. *)
Lemma process_emails_force_acked (total keep : Z) (filters : list rule)
    (smtp : smtp_config) (mail : imap_session)
    (emails : list (num * message)) (fa fo : Z) :
  force_acked
    (fst (process_emails L env total keep filters smtp mail emails fa fo))
  = map fst (filter (unmatched L filters)
               (firstn (Z.to_nat (total - keep - (fa + fo))) emails)).
Proof.
  revert fa fo. induction emails as [|[n msg] rest IH]; intros fa fo.
  - now rewrite firstn_nil.
  - rewrite process_emails_cons. simpl.
    destruct (first_match L msg filters) as [r|] eqn:Hm.
    + simpl.
      destruct (_execute_action_shape msg r mail n smtp)
        as (evs & -> & Hf & _).
      simpl. rewrite force_acked_app, Hf, IH. simpl.
      destruct (Z.to_nat (total - keep - (fa + fo))) as [|m] eqn:Hn.
      * replace (Z.to_nat (total - keep - (fa + 1 + fo))) with 0%nat by lia.
        reflexivity.
      * replace (Z.to_nat (total - keep - (fa + 1 + fo))) with m by lia.
        simpl. unfold unmatched at 2. simpl. now rewrite Hm.
    + destruct (total - (fa + fo) >? keep)%Z eqn:Hr.
      * simpl.
        destruct (ack_email_shape mail n msg) as (evs & -> & Hf & _).
        simpl. rewrite force_acked_app, Hf, IH. simpl.
        apply Z.gtb_lt in Hr.
        destruct (Z.to_nat (total - keep - (fa + fo))) as [|m] eqn:Hn;
          [lia|].
        replace (Z.to_nat (total - keep - (fa + (fo + 1)))) with m by lia.
        simpl. unfold unmatched at 2. simpl. now rewrite Hm.
      * rewrite IH.
        assert (total - (fa + fo) <= keep)%Z.
        { destruct (Z.gtb_spec (total - (fa + fo)) keep); [discriminate|lia]. }
        replace (Z.to_nat (total - keep - (fa + fo))) with 0%nat by lia.
        reflexivity.
Qed.

(** The messages the action branch takes: the matched ones. *)
Lemma process_emails_acted_on (total keep : Z) (filters : list rule)
    (smtp : smtp_config) (mail : imap_session)
    (emails : list (num * message)) (fa fo : Z) :
  acted_on
    (fst (process_emails L env total keep filters smtp mail emails fa fo))
  = map fst (filter (fun e => negb (unmatched L filters e)) emails).
Proof.
  revert fa fo. induction emails as [|[n msg] rest IH]; intros fa fo.
  - reflexivity.
  - rewrite process_emails_cons. simpl. unfold unmatched at 1. simpl.
    destruct (first_match L msg filters) as [r|] eqn:Hm; simpl.
    + destruct (_execute_action_shape msg r mail n smtp)
        as (evs & -> & _ & Ha & _).
      simpl. now rewrite acted_on_app, Ha, IH.
    + destruct (total - (fa + fo) >? keep)%Z; [|apply IH].
      simpl.
      destruct (ack_email_shape mail n msg) as (evs & -> & _ & Ha & _).
      simpl. now rewrite acted_on_app, Ha, IH.
Qed.

(** Every STORE of the loop belongs to a message of the action branch
    or of the force-acknowledgment branch. *)
Lemma process_emails_marked_seen (total keep : Z) (filters : list rule)
    (smtp : smtp_config) (mail : imap_session)
    (emails : list (num * message)) (fa fo : Z) (x : num) :
  let evs :=
    fst (process_emails L env total keep filters smtp mail emails fa fo) in
  In x (marked_seen evs) -> In x (acted_on evs) \/ In x (force_acked evs).
Proof.
  revert fa fo. induction emails as [|[n msg] rest IH]; intros fa fo.
  - simpl. tauto.
  - cbv zeta. rewrite process_emails_cons. simpl.
    destruct (first_match L msg filters) as [r|] eqn:Hm; simpl.
    + destruct (_execute_action_shape msg r mail n smtp)
        as (evs & -> & Hf & Ha & Hs & _).
      simpl. rewrite marked_seen_app, acted_on_app, force_acked_app, Hf, Ha.
      simpl. intros H. apply in_app_or in H as [H|H].
      * left. left. symmetry. now apply Hs.
      * apply IH in H as [H|H]; auto.
    + destruct (total - (fa + fo) >? keep)%Z; [|apply IH].
      simpl.
      destruct (ack_email_shape mail n msg) as (evs & -> & Hf & Ha & Hs & _).
      simpl. rewrite marked_seen_app, acted_on_app, force_acked_app, Hf, Ha.
      simpl. intros H. apply in_app_or in H as [H|H].
      * right. left. symmetry. now apply Hs.
      * apply IH in H as [H|H]; auto.
Qed.

End CycleFacts.

Lemma filter_all {A : Type} (f : A -> bool) (l : list A) :
  Forall (fun x => f x = true) l -> filter f l = l.
Proof.
  induction 1 as [|x l Hx _ IH]; simpl; [reflexivity|].
  now rewrite Hx, IH.
Qed.

Lemma in_firstn {A : Type} (n : nat) (l : list A) (x : A) :
  In x (firstn n l) -> In x l.
Proof.
  revert l. induction n as [|n IH]; intros [|y l]; simpl; try tauto.
  intros [H|H]; auto.
Qed.

Lemma nodup_keys_functional {A B : Type} (l : list (A * B)) (a : A)
    (b b' : B) :
  NoDup (map fst l) -> In (a, b) l -> In (a, b') l -> b = b'.
Proof.
  induction l as [|[x y] l IH]; simpl; [tauto|].
  intros Hnd H H'. inversion Hnd as [|? ? Hx Hl]; subst.
  assert (Hkey : forall c, In (a, c) l -> In a (map fst l)).
  { intros c Hc. change a with (fst (a, c)). now apply in_map. }
  destruct H as [H|H], H' as [H'|H'].
  - congruence.
  - inversion H; subst. exfalso. eauto.
  - inversion H'; subst. exfalso. eauto.
  - now apply IH.
Qed.

(** C1 (what the code does at the failing input).  For a matched
    message whose rule is a forward rule with a destination, when the
    forwarded message is built but the relay refuses it,
    [_execute_action] still issues STORE +FLAGS \Seen for the message:
    [forward_email] logs the failure and returns, so the handler in
    [_execute_action] is never reached. *)
Theorem C1_marked_seen_after_failed_send :
  forall (L : EmailLib) (env : cycle_env) (msg : message) (r : rule)
         (mail : imap_session) (n : num) (smtp : smtp_config)
         (ft : string) (fwd : outbound),
    is_forward (action r) = true ->
    forward_to r = Some ft ->
    truthy ft = true ->
    compose L msg smtp ft = Some fwd ->
    send_ok env fwd = false ->
    store_ok env n = true ->
    _execute_action L env msg r mail n smtp
    = ([Failed (SmtpSend (smtp_host smtp) (smtp_port smtp) (smtp_user smtp)
                         fwd);
        Logged LogForwardFailed;
        Did (ImapStoreSeen n);
        Logged (LogAcked n (sanitize_header
                              (get_default msg "Subject" "No Subject")))],
       Ok tt).
Proof.
  intros L env msg r mail n smtp ft fwd Ha Hf Ht Hc Hs Hst.
  rewrite (_execute_action_forward L env msg r mail n smtp ft Ha Hf Ht).
  rewrite forward_email_eq, ack_email_eq, Hc. simpl.
  now rewrite Hs, Hst.
Qed.

Lemma C1_witness :
  exists fwd,
    compose Sample.lib Sample.from_boss Sample.smtp "me@x" = Some fwd
    /\ marked_seen
         (fst (_execute_action Sample.lib
                 (Sample.relay_down [("1", Sample.from_boss)])
                 Sample.from_boss Sample.boss_rule Session "1" Sample.smtp))
       = ["1"].
Proof.
  eexists. split; [reflexivity|].
  rewrite (C1_marked_seen_after_failed_send
             Sample.lib (Sample.relay_down [("1", Sample.from_boss)])
             Sample.from_boss Sample.boss_rule Session "1" Sample.smtp
             "me@x" _ eq_refl eq_refl eq_refl eq_refl eq_refl eq_refl).
  reflexivity.
Defined.

(** The same input through a whole cycle: nothing is delivered and the
    message is flagged \Seen. *)
Example cycle_with_relay_down :
  let evs :=
    events (fetch_emails Sample.lib
              (Sample.relay_down [("1", Sample.from_boss)])
              (Sample.cfg 5 (Some 1%Z) [Sample.boss_rule])) in
  sent evs = [] /\ marked_seen evs = ["1"] /\ acted_on evs = ["1"].
Proof. repeat split. Qed.

(** C3 (as the code has it).  With a ceiling [k >= 0], an unmatched
    message is force-acknowledged exactly when it is among the first
    [total_unseen - k] messages fetched, matched ones included in that
    count.  So the force-acknowledged messages are the earliest
    unmatched ones, there are at least [max(0, n - k)] of them, and
    exactly [max(0, n - k)] when every message after the first
    [total_unseen - k] is unmatched, in particular when no message of
    the cycle is matched. *)
Theorem C3_force_acknowledged_prefix :
  forall (L : EmailLib) (env : cycle_env) (k : Z) (filters : list rule)
         (smtp : smtp_config) (mail : imap_session)
         (emails : list (num * message)),
    (0 <= k)%Z ->
    let total := Z.of_nat (length emails) in
    let evs :=
      fst (process_emails L env total k filters smtp mail emails 0 0) in
    let unmatched_nums := map fst (filter (unmatched L filters) emails) in
    let n := Z.of_nat (length unmatched_nums) in
    force_acked evs
    = map fst (filter (unmatched L filters)
                 (firstn (Z.to_nat (total - k)) emails))
    /\ (exists later, unmatched_nums = (force_acked evs ++ later)%list)
    /\ (Z.max 0 (n - k) <= Z.of_nat (length (force_acked evs)))%Z
    /\ (Forall (fun e => unmatched L filters e = true)
               (skipn (Z.to_nat (total - k)) emails) ->
        Z.of_nat (length (force_acked evs)) = Z.max 0 (n - k)).
Proof.
  intros L env k filters smtp mail emails Hk total evs unmatched_nums n.
  assert (Hfa : force_acked evs
                = map fst (filter (unmatched L filters)
                             (firstn (Z.to_nat (total - k)) emails))).
  { subst evs. rewrite process_emails_force_acked.
    now replace (total - k - (0 + 0))%Z with (total - k)%Z by lia. }
  set (m := Z.to_nat (total - k)) in *.
  assert (Hsplit : unmatched_nums
                   = (force_acked evs
                      ++ map fst (filter (unmatched L filters)
                                    (skipn m emails)))%list).
  { subst unmatched_nums. rewrite Hfa, <- map_app, <- filter_app.
    now rewrite firstn_skipn. }
  assert (Hlen : n = (Z.of_nat (length (force_acked evs))
                      + Z.of_nat (length (filter (unmatched L filters)
                                            (skipn m emails))))%Z).
  { subst n. rewrite Hsplit at 1.
    rewrite length_app, length_map. lia. }
  assert (Hskip : length (skipn m emails) = (length emails - m)%nat)
    by apply length_skipn.
  split; [exact Hfa|]. split; [eexists; exact Hsplit|]. split.
  - pose proof (filter_length_le (unmatched L filters) (skipn m emails)).
    subst total m. lia.
  - intros Hall. rewrite (filter_all _ _ Hall) in Hlen.
    assert (Hm : (length (force_acked evs) <= m)%nat).
    { rewrite Hfa, length_map.
      etransitivity; [apply filter_length_le|]. apply firstn_le_length. }
    subst total m. lia.
Qed.

Lemma C3_witness :
  let emails :=
    [("1", Sample.from_other); ("2", Sample.from_boss);
     ("3", Sample.from_other)] in
  force_acked
    (fst (process_emails Sample.lib (Sample.servers emails)
            (Z.of_nat (length emails)) 1 [Sample.boss_rule] Sample.smtp
            Session emails 0 0))
  = ["1"].
Proof.
  intros emails.
  refine (eq_trans
            (proj1 (C3_force_acknowledged_prefix
                      Sample.lib (Sample.servers emails) 1
                      [Sample.boss_rule] Sample.smtp Session emails _)) _).
  - lia.
  - reflexivity.
Defined.

(** C3 as stated fails when a matched message is fetched after the
    unmatched ones: with two unmatched messages followed by a matched
    one and a ceiling of 2, the claim lets none be force-acknowledged,
    and the cycle force-acknowledges the first. *)
Lemma C3_counterexample :
  let emails :=
    [("1", Sample.from_other); ("2", Sample.from_other);
     ("3", Sample.from_boss)] in
  let evs :=
    events (fetch_emails Sample.lib (Sample.servers emails)
              (Sample.cfg 5 (Some 2%Z) [Sample.boss_rule])) in
  let n :=
    Z.of_nat (length (filter (unmatched Sample.lib [Sample.boss_rule])
                        emails)) in
  n = 2%Z
  /\ force_acked evs = ["1"]
  /\ Z.of_nat (length (force_acked evs)) <> Z.max 0 (n - 2).
Proof. repeat split. discriminate. Qed.

(** C8.  In one cycle, with message numbers that are all different, a
    message that matches a rule is taken by the action branch and is not
    force-acknowledged; a message that matches no rule is not taken by
    the action branch and is either force-acknowledged or gets no STORE
    at all; so no message is both acted on and force-acknowledged. *)
Theorem C8_matched_xor_unmatched :
  forall (L : EmailLib) (env : cycle_env) (k : Z) (filters : list rule)
         (smtp : smtp_config) (mail : imap_session)
         (emails : list (num * message)),
    NoDup (map fst emails) ->
    let evs :=
      fst (process_emails L env (Z.of_nat (length emails)) k filters smtp
                          mail emails 0 0) in
    (forall n msg,
        In (n, msg) emails ->
        match first_match L msg filters with
        | Some _ => In n (acted_on evs) /\ ~ In n (force_acked evs)
        | None =>
            ~ In n (acted_on evs)
            /\ (In n (force_acked evs) \/ ~ In n (marked_seen evs))
        end)
    /\ (forall n, ~ (In n (acted_on evs) /\ In n (force_acked evs))).
Proof.
  intros L env k filters smtp mail emails Hnd evs.
  assert (Hacted : forall n,
             In n (acted_on evs) ->
             exists msg, In (n, msg) emails
                         /\ first_match L msg filters <> None).
  { intros n H. subst evs. rewrite process_emails_acted_on in H.
    apply in_map_iff in H as ([n' msg] & <- & H).
    apply filter_In in H as [H Hm]. exists msg. split; [exact H|].
    unfold unmatched in Hm. simpl in Hm.
    now destruct (first_match L msg filters). }
  assert (Hforced : forall n,
             In n (force_acked evs) ->
             exists msg, In (n, msg) emails
                         /\ first_match L msg filters = None).
  { intros n H. subst evs. rewrite process_emails_force_acked in H.
    apply in_map_iff in H as ([n' msg] & <- & H).
    apply filter_In in H as [H Hm]. exists msg.
    split; [eapply in_firstn; exact H|].
    unfold unmatched in Hm. simpl in Hm.
    now destruct (first_match L msg filters). }
  split.
  - intros n msg Hin.
    destruct (first_match L msg filters) as [r|] eqn:Hm.
    + split.
      * subst evs. rewrite process_emails_acted_on.
        apply in_map_iff. exists (n, msg). split; [reflexivity|].
        apply filter_In. split; [exact Hin|].
        unfold unmatched. simpl. now rewrite Hm.
      * intros H. apply Hforced in H as (msg' & Hin' & Hm').
        rewrite (nodup_keys_functional _ _ _ _ Hnd Hin Hin') in Hm.
        congruence.
    + split.
      * intros H. apply Hacted in H as (msg' & Hin' & Hm').
        rewrite (nodup_keys_functional _ _ _ _ Hnd Hin Hin') in Hm.
        congruence.
      * destruct (in_dec string_dec n (force_acked evs)) as [Hf|Hf];
          [now left|right].
        intros Hs. subst evs.
        apply process_emails_marked_seen in Hs as [Hs|Hs]; [|tauto].
        apply Hacted in Hs as (msg' & Hin' & Hm').
        rewrite (nodup_keys_functional _ _ _ _ Hnd Hin Hin') in Hm.
        congruence.
  - intros n [Ha Hf].
    apply Hacted in Ha as (msg & Hin & Hm).
    apply Hforced in Hf as (msg' & Hin' & Hm').
    rewrite (nodup_keys_functional _ _ _ _ Hnd Hin Hin') in Hm.
    congruence.
Qed.

Lemma C8_witness :
  let emails :=
    [("1", Sample.from_other); ("2", Sample.from_boss);
     ("3", Sample.from_other)] in
  let evs :=
    fst (process_emails Sample.lib (Sample.servers emails)
           (Z.of_nat (length emails)) 1 [Sample.boss_rule] Sample.smtp
           Session emails 0 0) in
  NoDup (map fst emails)
  /\ forall n, ~ (In n (acted_on evs) /\ In n (force_acked evs)).
Proof.
  intros emails evs.
  assert (Hnd : NoDup (map fst emails)).
  { repeat constructor; simpl; intuition discriminate. }
  split; [exact Hnd|].
  exact (proj2 (C8_matched_xor_unmatched
                  Sample.lib (Sample.servers emails) 1 [Sample.boss_rule]
                  Sample.smtp Session emails Hnd)).
Defined.

(** ** Fetching and releasing the connection *)

Lemma fetch_phase_quiet (evs : list event) :
  forallb fetch_phase evs = true ->
  force_acked evs = [] /\ acted_on evs = [] /\ marked_seen evs = []
  /\ sent evs = [] /\ existsb releases evs = false.
Proof.
  induction evs as [|e evs IH]; simpl; [tauto|].
  intros H. apply andb_true_iff in H as [He H].
  specialize (IH H). destruct IH as (? & ? & ? & ? & ?).
  destruct e as [c|c|l]; try destruct c; try destruct l;
    simpl in *; try discriminate; tauto.
Qed.

(** Closes one case of [fetch_unseen_emails_shape]. *)
Ltac shape_done :=
  do 2 eexists; split; [reflexivity|]; split;
  [ simpl;
    repeat (rewrite forallb_app; simpl);
    repeat match goal with
           | H : forallb fetch_phase _ = true |- _ => rewrite H; clear H
           end;
    reflexivity
  | split; [intros _; simpl; auto | discriminate] ].

Section FetchFacts.

Context (env : cycle_env).

Lemma fetch_all_shape (nums : list num) (acc : list (num * message)) :
  forallb fetch_phase (fst (fetch_all env nums acc)) = true.
Proof.
  revert acc. induction nums as [|n rest IH]; intros acc; simpl.
  - reflexivity.
  - destruct (fetch_reply env n) as [[status msg]|]; [|reflexivity].
    simpl. destruct (negb (status =? "OK")); simpl.
    + specialize (IH acc).
      destruct (fetch_all env rest acc) as [evs r]. exact IH.
    + specialize (IH (acc ++ [(n, msg)])%list).
      destruct (fetch_all env rest _) as [evs r]. exact IH.
Qed.

(** [fetch_unseen_emails] never raises, and it never closes the
    connection it opened. *)
Lemma fetch_unseen_emails_shape (host : string) (port : Z)
    (user password folder : string) (fix_163 : bool) :
  exists evs r,
    fetch_unseen_emails env host port user password folder fix_163
    = (evs, Ok r)
    /\ forallb fetch_phase evs = true
    /\ (connect_ok env = true -> In (Did (ImapConnect host port)) evs)
    /\ (connect_ok env = false ->
        evs = [Failed (ImapConnect host port); Logged LogFetchUnseenFailed]
        /\ r = (None, [])).
Proof.
  unfold fetch_unseen_emails, perform.
  destruct (connect_ok env); simpl.
  2:{ do 2 eexists. split; [reflexivity|]. split; [reflexivity|].
      split; [discriminate|]. intros _. split; reflexivity. }
  destruct (login_ok env); simpl; [|shape_done].
  assert (Hid : exists ev,
             (if fix_163
              then try_except (if id_ok env
                               then ([Did ImapId], Ok tt)
                               else ([Failed ImapId], Raised))
                              (emit LogIdSkipped)
              else ret tt) = (ev, Ok tt)
             /\ forallb fetch_phase ev = true).
  { destruct fix_163; [destruct (id_ok env)|]; simpl;
      eexists; split; reflexivity. }
  destruct Hid as (ev & -> & Hev). simpl.
  destruct (select_ok env); simpl; [|shape_done].
  destruct (search_reply env) as [[status data]|]; simpl; [|shape_done].
  destruct (negb (status =? "OK")); simpl; [shape_done|].
  pose proof (fetch_all_shape data []) as Hfa.
  destruct (fetch_all env data []) as [evf [l|]]; simpl in *; shape_done.
Qed.

Lemma close_connection_eq :
  close_connection env =
  if close_ok env
  then if logout_ok env
       then ([Did ImapClose; Did ImapLogout; Logged LogImapClosed], Ok tt)
       else ([Did ImapClose; Failed ImapLogout], Raised)
  else ([Failed ImapClose], Raised).
Proof.
  unfold close_connection, perform.
  now destruct (close_ok env), (logout_ok env).
Qed.

End FetchFacts.

Section WholeCycle.

Context (L : EmailLib) (env : cycle_env).

Lemma process_fetched_returns (cfg : config) (mail : imap_session)
    (emails : list (num * message)) :
  exists evs b,
    process_fetched L env cfg mail emails = (evs, Ok b)
    /\ b = match emails with [] => true | _ => false end
    /\ evs
       = (match emails with
          | [] => Logged LogNoNewEmails
          | _ => Logged (LogProcessing (length emails))
          end
          :: fst (process_emails L env (Z.of_nat (length emails))
                    (keep_unseen_count_of cfg) (filters_of cfg) (cfg_smtp cfg)
                    mail emails 0 0))%list.
Proof.
  unfold process_fetched. destruct emails as [|e rest].
  - now do 2 eexists.
  - remember (e :: rest) as emails eqn:He.
    destruct (process_emails_returns L env (Z.of_nat (length emails))
                (keep_unseen_count_of cfg) (filters_of cfg) (cfg_smtp cfg)
                mail emails 0 0) as [counts Hc].
    destruct (process_emails L env (Z.of_nat (length emails))
                (keep_unseen_count_of cfg) (filters_of cfg) (cfg_smtp cfg)
                mail emails 0 0) as [evs r].
    simpl in Hc. subst r. simpl.
    do 2 eexists. split; [reflexivity|].
    rewrite app_nil_r. now subst emails.
Qed.

(** A cycle that found the mailbox: what [fetch_emails] amounts to once
    [fetch_unseen_emails] has returned a session. *)
Lemma fetch_emails_with_session (cfg : config) (fetch_evs : list event)
    (mail : imap_session) (emails : list (num * message)) :
  (lower (transport (cfg_pull_email cfg)) =? "imap") = true ->
  fetch_unseen_for env cfg = (fetch_evs, Ok (Some mail, emails)) ->
  exists body returned,
    process_fetched L env cfg mail emails = (body, Ok returned)
    /\ fetch_emails L env cfg
       = ((Logged (LogFetching (transport (cfg_pull_email cfg)))
           :: fetch_evs ++ body ++ fst (close_connection env)
              ++ match snd (close_connection env) with
                 | Ok _ => if returned then [] else [Logged LogFinished]
                 | Raised => []
                 end)%list,
          snd (close_connection env)).
Proof.
  intros Ht Hf.
  destruct (process_fetched_returns cfg mail emails)
    as (body & returned & Hb & _).
  exists body, returned. split; [exact Hb|].
  unfold fetch_emails. rewrite Ht, Hf. simpl. rewrite Hb.
  rewrite close_connection_eq.
  destruct (close_ok env), (logout_ok env), returned; simpl;
    rewrite <- ?app_assoc; simpl; rewrite ?app_nil_r; reflexivity.
Qed.

Lemma fetch_emails_without_session (cfg : config) (fetch_evs : list event)
    (emails : list (num * message)) :
  (lower (transport (cfg_pull_email cfg)) =? "imap") = true ->
  fetch_unseen_for env cfg = (fetch_evs, Ok (None, emails)) ->
  fetch_emails L env cfg
  = ((Logged (LogFetching (transport (cfg_pull_email cfg)))
      :: fetch_evs ++ [Logged LogImapFailed])%list, Ok tt).
Proof.
  intros Ht Hf. unfold fetch_emails. now rewrite Ht, Hf.
Qed.

(** What a cycle forwards and acknowledges is what its loop over the
    fetched messages forwards and acknowledges. *)
Lemma cycle_observations (cfg : config) (fetch_evs : list event)
    (mail : imap_session) (emails : list (num * message)) :
  (lower (transport (cfg_pull_email cfg)) =? "imap") = true ->
  fetch_unseen_for env cfg = (fetch_evs, Ok (Some mail, emails)) ->
  let loop :=
    fst (process_emails L env (Z.of_nat (length emails))
           (keep_unseen_count_of cfg) (filters_of cfg) (cfg_smtp cfg)
           mail emails 0 0) in
  let evs := events (fetch_emails L env cfg) in
  force_acked evs = force_acked loop
  /\ acted_on evs = acted_on loop
  /\ marked_seen evs = marked_seen loop
  /\ sent evs = sent loop.
Proof.
  intros Ht Hf loop evs.
  assert (Hq : forallb fetch_phase fetch_evs = true).
  { unfold fetch_unseen_for in Hf.
    match type of Hf with
    | fetch_unseen_emails _ ?h ?p ?u ?pw ?f ?x = _ =>
        destruct (fetch_unseen_emails_shape env h p u pw f x)
          as (e0 & r0 & Hs & Hq & _)
    end.
    rewrite Hs in Hf. now injection Hf as -> _. }
  destruct (fetch_phase_quiet _ Hq) as (Q1 & Q2 & Q3 & Q4 & _).
  destruct (fetch_emails_with_session cfg _ _ _ Ht Hf)
    as (body & returned & Hb & He).
  destruct (process_fetched_returns cfg mail emails)
    as (body' & returned' & Hb' & _ & Hbody).
  rewrite Hb in Hb'. injection Hb' as <- <-.
  fold loop in Hbody.
  subst evs. rewrite He. unfold events. simpl fst.
  rewrite close_connection_eq, Hbody.
  change (?x :: ?l ++ ?r)%list with (([x] ++ l) ++ r)%list.
  rewrite !force_acked_app, !acted_on_app, !marked_seen_app, !sent_app.
  rewrite Q1, Q2, Q3, Q4.
  destruct emails, (close_ok env), (logout_ok env), returned; simpl;
    rewrite ?app_nil_r; repeat split; reflexivity.
Qed.

(** An exception leaves [fetch_emails] only from the [finally] block. *)
Lemma fetch_emails_raises_only_on_close (cfg : config) :
  snd (fetch_emails L env cfg) = Raised ->
  close_ok env = false \/ logout_ok env = false.
Proof.
  destruct (lower (transport (cfg_pull_email cfg)) =? "imap") eqn:Ht.
  2:{ unfold fetch_emails. rewrite Ht. discriminate. }
  destruct (fetch_unseen_emails_shape env
              (imap_host (cfg_imap cfg))
              (match imap_port (cfg_imap cfg) with
               | Some p => p
               | None => 993%Z
               end)
              (imap_user (cfg_imap cfg)) (imap_password (cfg_imap cfg))
              (select_folder (cfg_pull_email cfg))
              (match is_fix_163provider_issue (cfg_imap cfg) with
               | Some b => b
               | None => false
               end)) as (evs & [[mail|] emails] & Hf & _).
  - destruct (fetch_emails_with_session cfg evs mail emails Ht Hf)
      as (body & returned & _ & ->).
    simpl. rewrite close_connection_eq.
    destruct (close_ok env), (logout_ok env); simpl; auto; discriminate.
  - rewrite (fetch_emails_without_session cfg evs emails Ht Hf).
    discriminate.
Qed.

End WholeCycle.

(** C4 (what the code does at the failing input).  When the connection
    to the mailbox is established and a later call inside
    [fetch_unseen_emails] raises (login, select, search or a fetch),
    that method returns no session, and the cycle ends without a CLOSE
    or a LOGOUT: the connection that was opened is not released. *)
Theorem C4_connection_left_open :
  forall (L : EmailLib) (env : cycle_env) (cfg : config)
         (fetch_evs : list event) (emails : list (num * message)),
    (lower (transport (cfg_pull_email cfg)) =? "imap") = true ->
    connect_ok env = true ->
    fetch_unseen_for env cfg = (fetch_evs, Ok (None, emails)) ->
    let evs := events (fetch_emails L env cfg) in
    (exists host port, In (Did (ImapConnect host port)) evs)
    /\ existsb releases evs = false
    /\ outcome (fetch_emails L env cfg) = Ok tt.
Proof.
  intros L env cfg fetch_evs emails Ht Hc Hf evs.
  subst evs. rewrite (fetch_emails_without_session L env cfg _ _ Ht Hf).
  unfold events, outcome. simpl.
  unfold fetch_unseen_for in Hf.
  destruct (fetch_unseen_emails_shape env
              (imap_host (cfg_imap cfg))
              (match imap_port (cfg_imap cfg) with
               | Some p => p
               | None => 993%Z
               end)
              (imap_user (cfg_imap cfg)) (imap_password (cfg_imap cfg))
              (select_folder (cfg_pull_email cfg))
              (match is_fix_163provider_issue (cfg_imap cfg) with
               | Some b => b
               | None => false
               end)) as (evs & r & Hs & Hq & Hin & _).
  rewrite Hs in Hf. injection Hf as -> _.
  split; [|split; [|reflexivity]].
  - do 2 eexists. right. apply in_or_app. left. now apply Hin.
  - rewrite existsb_app. simpl.
    now rewrite (proj2 (proj2 (proj2 (proj2 (fetch_phase_quiet _ Hq))))).
Qed.

Lemma C4_witness :
  existsb releases
    (events (fetch_emails Sample.lib (Sample.fetch_breaks ["1"])
               (Sample.cfg 5 (Some 1%Z) [Sample.boss_rule])))
  = false.
Proof.
  exact (proj1 (proj2 (C4_connection_left_open
                         Sample.lib (Sample.fetch_breaks ["1"])
                         (Sample.cfg 5 (Some 1%Z) [Sample.boss_rule])
                         _ _ eq_refl eq_refl eq_refl))).
Defined.

(** The sibling path: once [fetch_unseen_emails] has returned a
    session, the [finally] block issues CLOSE whatever the loop did. *)
Lemma close_attempted_after_fetch :
  forall (L : EmailLib) (env : cycle_env) (cfg : config)
         (fetch_evs : list event) (mail : imap_session)
         (emails : list (num * message)),
    (lower (transport (cfg_pull_email cfg)) =? "imap") = true ->
    fetch_unseen_for env cfg = (fetch_evs, Ok (Some mail, emails)) ->
    existsb releases (events (fetch_emails L env cfg)) = true.
Proof.
  intros L env cfg fetch_evs mail emails Ht Hf.
  destruct (fetch_emails_with_session L env cfg _ _ _ Ht Hf)
    as (body & returned & _ & ->).
  unfold events. simpl. rewrite !existsb_app, close_connection_eq.
  destruct (close_ok env), (logout_ok env); simpl;
    now rewrite ?orb_true_r.
Qed.

(** C10.  A configuration without the [keep_unseen_count] key builds a
    poller like any other, and its cycles are, event for event and
    outcome for outcome, the cycles of the same configuration with
    [keep_unseen_count: 100]; an exception can leave such a cycle only
    from the closing of the connection. *)
Theorem C10_default_ceiling_is_100 :
  forall (L : EmailLib) (env : cycle_env) (cfg : config),
    let absent := with_keep_unseen_count None cfg in
    let explicit := with_keep_unseen_count (Some 100%Z) cfg in
    keep_unseen_count_of absent = 100%Z
    /\ fetch_emails L env absent = fetch_emails L env explicit
    /\ running (init absent) = false
    /\ thread (init absent) = None
    /\ fetch_interval (init absent) = fetch_interval (init explicit)
    /\ (outcome (fetch_emails L env absent) = Raised ->
        close_ok env = false \/ logout_ok env = false).
Proof.
  intros L env cfg absent explicit.
  repeat split.
  apply fetch_emails_raises_only_on_close.
Qed.

(** ** The polling thread *)

Lemma nth_error_set_nth {A : Type} (l : list A) (t : nat) (x y : A) :
  nth_error l t = Some x -> nth_error (set_nth t y l) t = Some y.
Proof.
  revert t. induction l as [|z l IH]; intros [|t]; simpl; try discriminate.
  - reflexivity.
  - apply IH.
Qed.

Lemma nth_error_set_nth_none {A : Type} (l : list A) (t : nat) (y : A) :
  nth_error l t = None -> set_nth t y l = l.
Proof.
  revert t. induction l as [|z l IH]; intros [|t]; simpl; try discriminate.
  - reflexivity.
  - reflexivity.
  - intros H. now rewrite IH.
Qed.

Lemma fetch_emails_unreachable (L : EmailLib) (env : cycle_env)
    (cfg : config) :
  connect_ok env = false ->
  fetch_emails L env cfg =
  let transport_type := transport (cfg_pull_email cfg) in
  if negb (lower transport_type =? "imap")
  then ([Logged (LogTransportNotImplemented transport_type)], Ok tt)
  else ([Logged (LogFetching transport_type);
         Failed (ImapConnect (imap_host (cfg_imap cfg))
                             (match imap_port (cfg_imap cfg) with
                              | Some p => p
                              | None => 993%Z
                              end));
         Logged LogFetchUnseenFailed;
         Logged LogImapFailed], Ok tt).
Proof.
  intros H.
  unfold fetch_emails, fetch_unseen_for, fetch_unseen_emails, perform.
  rewrite H. simpl.
  now destruct (negb (lower (transport (cfg_pull_email cfg)) =? "imap")).
Qed.

Section ThreadFacts.

Context (L : EmailLib) (envs : nat -> cycle_env).

Lemma _poll_loop_exited (t : nat) (w : world) :
  is_alive t w = false -> _poll_loop L envs t w = w.
Proof.
  unfold is_alive, _poll_loop.
  now destruct (nth_error (threads w) t) as [[| |k|]|].
Qed.

Lemma run_exited (n t : nat) (w : world) :
  is_alive t w = false -> run L envs n t w = w.
Proof.
  intros H. induction n as [|n IH]; simpl; [reflexivity|].
  now rewrite (_poll_loop_exited t w H).
Qed.

(** A thread in its [for] loop, with the flag set, sleeps one second
    per step until the loop is exhausted. *)
Lemma run_sleeping (k t : nat) (w : world) :
  nth_error (threads w) t = Some (Sleeping k) ->
  running (self w) = true ->
  let w' := run L envs k t w in
  self w' = self w
  /\ nth_error (threads w') t = Some (Sleeping 0)
  /\ clock w' = clock w + k
  /\ cycle_no w' = cycle_no w
  /\ trace w' = (trace w ++ repeat (Did (Sleep 1)) k)%list.
Proof.
  revert w. induction k as [|k IH]; intros w Ht Hr; simpl.
  - repeat split; auto. now rewrite app_nil_r.
  - assert (Hstep : _poll_loop L envs t w
                    = {| self := self w;
                         threads := set_nth t (Sleeping k) (threads w);
                         clock := clock w + 1;
                         cycle_no := cycle_no w + 0;
                         trace := trace w ++ [Did (Sleep 1)] |}).
    { unfold _poll_loop. now rewrite Ht, Hr. }
    rewrite Hstep.
    match goal with |- context [run L envs k t ?w1] =>
      specialize (IH w1) end.
    simpl in IH.
    destruct (IH (nth_error_set_nth _ _ _ _ Ht) Hr)
      as (Hs & Hn & Hc & Hcy & Htr).
    repeat split; auto; try lia.
    rewrite Htr, <- app_assoc. reflexivity.
Qed.

Lemma run_plus (a b t : nat) (w : world) :
  run L envs (a + b) t w = run L envs b t (run L envs a t w).
Proof.
  revert w. induction a as [|a IH]; intros w; simpl; [reflexivity|].
  apply IH.
Qed.

Lemma join_S (p t : nat) (w : world) :
  join L envs (S p) t w =
  if is_alive t w then join L envs p t (_poll_loop L envs t w) else w.
Proof. reflexivity. Qed.

Lemma join_dead (p t : nat) (w : world) :
  is_alive t w = false -> join L envs p t w = w.
Proof. intros H. destruct p; [reflexivity|]. now rewrite join_S, H. Qed.

Lemma step_from_head (t : nat) (w : world) :
  running (self w) = false ->
  nth_error (threads w) t = Some AtLoopHead ->
  is_alive t (_poll_loop L envs t w) = false
  /\ self (_poll_loop L envs t w) = self w.
Proof.
  intros Hr Ht. unfold _poll_loop. rewrite Ht, Hr. simpl.
  split; [|reflexivity].
  unfold is_alive. simpl. now rewrite (nth_error_set_nth _ _ _ _ Ht).
Qed.

Lemma step_to_head (t : nat) (w : world) (pc : worker) :
  running (self w) = false ->
  nth_error (threads w) t = Some pc ->
  pc <> AtLoopHead -> pc <> Exited ->
  nth_error (threads (_poll_loop L envs t w)) t = Some AtLoopHead
  /\ self (_poll_loop L envs t w) = self w.
Proof.
  intros Hr Ht H1 H2. unfold _poll_loop. rewrite Ht, Hr.
  destruct pc as [| |[|k]|]; try congruence; simpl;
    now rewrite (nth_error_set_nth _ _ _ _ Ht).
Qed.

(** [join] on a thread whose flag is cleared: two steps are enough for
    it to return. *)
Lemma join_returns (patience t : nat) (w : world) :
  2 <= patience ->
  running (self w) = false ->
  is_alive t (join L envs patience t w) = false
  /\ self (join L envs patience t w) = self w.
Proof.
  intros Hp Hr.
  destruct patience as [|[|p]]; try lia.
  destruct (is_alive t w) eqn:Ha.
  2:{ rewrite join_dead by exact Ha. now split. }
  rewrite join_S, Ha.
  unfold is_alive in Ha.
  destruct (nth_error (threads w) t) as [pc|] eqn:Ht; [|discriminate].
  destruct pc as [| |k|]; try discriminate.
  - destruct (step_to_head t w Entry Hr Ht) as [Hn Hs]; try discriminate.
    rewrite join_S.
    assert (Ha1 : is_alive t (_poll_loop L envs t w) = true)
      by (unfold is_alive; now rewrite Hn).
    rewrite Ha1.
    destruct (step_from_head t (_poll_loop L envs t w)) as [Hd Hs'];
      [now rewrite Hs | exact Hn |].
    rewrite join_dead by exact Hd. split; [exact Hd | congruence].
  - destruct (step_from_head t w Hr Ht) as [Hd Hs].
    rewrite join_dead by exact Hd. now split.
  - destruct (step_to_head t w (Sleeping k) Hr Ht) as [Hn Hs];
      try discriminate.
    rewrite join_S.
    assert (Ha1 : is_alive t (_poll_loop L envs t w) = true)
      by (unfold is_alive; now rewrite Hn).
    rewrite Ha1.
    destruct (step_from_head t (_poll_loop L envs t w)) as [Hd Hs'];
      [now rewrite Hs | exact Hn |].
    rewrite join_dead by exact Hd. split; [exact Hd | congruence].
Qed.

End ThreadFacts.

(** C2 (as the code has it).  When the mailbox server cannot be
    reached, [fetch_emails] returns normally: nothing is forwarded,
    nothing is acknowledged, no exception reaches the loop of the
    thread.  The thread then goes through its ordinary [for] loop, so
    with the flag set the next cycle starts [fetch_interval] seconds
    later; the 60-second cooldown is not taken. *)
Theorem C2_unreachable_store_waits_fetch_interval :
  forall (L : EmailLib) (envs : nat -> cycle_env) (t : nat) (w : world),
    nth_error (threads w) t = Some AtLoopHead ->
    running (self w) = true ->
    connect_ok (envs (cycle_no w)) = false ->
    let cycle := fetch_emails L (envs (cycle_no w)) (self_config (self w)) in
    let n := Z.to_nat (fetch_interval (self w)) in
    let w' := run L envs (1 + n + 1) t w in
    outcome cycle = Ok tt
    /\ sent (events cycle) = []
    /\ marked_seen (events cycle) = []
    /\ force_acked (events cycle) = []
    /\ acted_on (events cycle) = []
    /\ nth_error (threads w') t = Some AtLoopHead
    /\ cycle_no w' = cycle_no w + 1
    /\ clock w' = clock w + n
    /\ trace w' = (trace w ++ events cycle ++ repeat (Did (Sleep 1)) n)%list.
Proof.
  intros L envs t w Ht Hr Hc cycle n w'.
  assert (Hcycle : outcome cycle = Ok tt
                   /\ sent (events cycle) = []
                   /\ marked_seen (events cycle) = []
                   /\ force_acked (events cycle) = []
                   /\ acted_on (events cycle) = []).
  { subst cycle. rewrite (fetch_emails_unreachable L _ _ Hc). cbv zeta.
    destruct (negb _); repeat split. }
  destruct Hcycle as (Ho & Hsent & Hseen & Hforce & Hact).
  repeat (split; [assumption|]).
  assert (Hstep : _poll_loop L envs t w
                  = {| self := self w;
                       threads := set_nth t (Sleeping n) (threads w);
                       clock := clock w + 0;
                       cycle_no := cycle_no w + 1;
                       trace := trace w ++ events cycle |}).
  { unfold _poll_loop. rewrite Ht, Hr. fold cycle.
    unfold outcome in Ho. unfold events.
    destruct cycle as [evs r]. simpl in Ho. now subst r. }
  subst w'. change (1 + n + 1) with (S (n + 1)). simpl run.
  rewrite Hstep, run_plus.
  match goal with |- context [run L envs n t ?w1] =>
    pose proof (run_sleeping L envs n t w1) as Hsleep end.
  simpl in Hsleep.
  destruct (Hsleep (nth_error_set_nth _ _ _ _ Ht) Hr)
    as (Hs & Hn & Hcl & Hcy & Htr).
  simpl run. unfold _poll_loop at 1 2 3 4. rewrite Hn. simpl.
  rewrite (nth_error_set_nth _ _ _ _ Hn), Hcy, Hcl, Htr.
  repeat split; try lia.
  now rewrite app_nil_r, <- app_assoc.
Qed.

Lemma C2_witness :
  let w := run Sample.lib (fun _ => Sample.unreachable) 1 0
               (start (boot (Sample.cfg 5 (Some 1%Z) [Sample.boss_rule]))) in
  clock (run Sample.lib (fun _ => Sample.unreachable) (1 + 5 + 1) 0 w)
  = clock w + 5.
Proof.
  intros w.
  exact (proj1 (proj2 (proj2 (proj2 (proj2 (proj2 (proj2 (proj2
           (C2_unreachable_store_waits_fetch_interval
              Sample.lib (fun _ => Sample.unreachable) 0 w
              eq_refl eq_refl eq_refl))))))))).
Defined.

(** C2 as stated fails: with a fetch interval of 5 and a mailbox server
    that is never reachable, the second cycle has run when the thread
    has slept 5 seconds in all, well before 60. *)
Lemma C2_counterexample :
  let w := run Sample.lib (fun _ => Sample.unreachable) 9 0
               (start (boot (Sample.cfg 5 (Some 1%Z) [Sample.boss_rule]))) in
  connect_ok Sample.unreachable = false
  /\ cycle_no w = 2
  /\ clock w = 5
  /\ ~ (60 <= clock w).
Proof.
  intros w. repeat split.
  intros H. vm_compute in H. lia.
Qed.

(** The cooldown belongs to the handler of the loop: a step from the
    [while] test sleeps 60 seconds exactly when an exception left
    [fetch_emails], and the thread returns only when the flag is
    cleared. *)
Lemma cooldown_only_after_exception :
  forall (L : EmailLib) (envs : nat -> cycle_env) (t : nat) (w : world),
    nth_error (threads w) t = Some AtLoopHead ->
    running (self w) = true ->
    let cycle := fetch_emails L (envs (cycle_no w)) (self_config (self w)) in
    let w' := _poll_loop L envs t w in
    is_alive t w' = true
    /\ (outcome cycle = Raised ->
        clock w' = clock w + 60
        /\ nth_error (threads w') t = Some AtLoopHead)
    /\ (outcome cycle <> Raised -> clock w' = clock w).
Proof.
  intros L envs t w Ht Hr cycle w'. subst w'.
  unfold _poll_loop, is_alive. rewrite Ht, Hr. fold cycle.
  unfold outcome. destruct cycle as [evs [u|]]; simpl;
    rewrite (nth_error_set_nth _ _ _ _ Ht).
  - repeat split; [discriminate | discriminate | lia].
  - repeat split; congruence.
Qed.

(** ** Starting and stopping *)

Lemma clear_flag_noop (w : world) :
  running (self w) = false ->
  {| self := set_running false (self w);
     threads := threads w;
     clock := clock w;
     cycle_no := cycle_no w;
     trace := trace w |} = w.
Proof.
  destruct w as [[c r th fi] ths cl cy tr]. simpl. now intros ->.
Qed.

Lemma stop_facts (L : EmailLib) (envs : nat -> cycle_env)
    (patience : nat) (w : world) :
  2 <= patience ->
  running (self (stop L envs patience w)) = false
  /\ thread (self (stop L envs patience w)) = thread (self w)
  /\ (forall t, thread (self w) = Some t ->
                is_alive t (stop L envs patience w) = false).
Proof.
  intros Hp. unfold stop. simpl.
  destruct (thread (self w)) as [t|] eqn:Hth; simpl.
  - match goal with |- context [is_alive t ?x] => set (w2 := x) end.
    assert (Hr2 : running (self w2) = false) by reflexivity.
    destruct (is_alive t w2) eqn:Ha.
    + destruct (join_returns L envs patience t w2 Hp Hr2) as [Hd Hs].
      simpl. rewrite Hs. simpl.
      repeat split; auto. intros t' Ht'. injection Ht' as <-. exact Hd.
    + simpl. repeat split; auto.
      intros t' Ht'. injection Ht' as <-. exact Ha.
  - repeat split; auto. discriminate.
Qed.

(** C9.  [start] on a poller that is running only writes the warning:
    the poller and the table of threads are unchanged, so no second
    thread exists; on a poller that is not running it sets the flag and
    starts exactly one thread.  [stop] clears the flag and, given the
    two steps the thread needs to see the flag, returns with the thread
    exited; nothing the thread could do afterwards changes anything.  A
    second [stop] only writes its two log lines. *)
Theorem C9_start_and_stop :
  forall (L : EmailLib) (envs : nat -> cycle_env) (patience : nat)
         (w : world),
    2 <= patience ->
    let stopped := stop L envs patience w in
    (running (self w) = true ->
     start w = log LogAlreadyRunning w
     /\ threads (start w) = threads w
     /\ self (start w) = self w)
    /\ (running (self w) = false ->
        threads (start w) = (threads w ++ [Entry])%list
        /\ running (self (start w)) = true
        /\ thread (self (start w)) = Some (length (threads w)))
    /\ running (self stopped) = false
    /\ (forall t,
           thread (self w) = Some t ->
           is_alive t stopped = false
           /\ forall n, run L envs n t stopped = stopped)
    /\ stop L envs patience stopped
       = log LogStopped (log LogStopping stopped).
Proof.
  intros L envs patience w Hp stopped.
  destruct (stop_facts L envs patience w Hp) as (Hr & Hth & Hd).
  fold stopped in Hr, Hth, Hd.
  split; [|split; [|split; [|split]]].
  - intros H. unfold start. rewrite H. now repeat split.
  - intros H. unfold start. rewrite H. now repeat split.
  - exact Hr.
  - intros t Ht. split; [now apply Hd|].
    intros n. apply run_exited. now apply Hd.
  - unfold stop at 1. cbv zeta.
    rewrite (clear_flag_noop (log LogStopping stopped)) by exact Hr.
    change (self (log LogStopping stopped)) with (self stopped).
    rewrite Hth.
    destruct (thread (self w)) as [t|]; [|reflexivity].
    assert (Ha : is_alive t (log LogStopping stopped) = false)
      by (now apply Hd).
    now rewrite Ha.
Qed.

Lemma C9_witness :
  let envs := fun _ : nat => Sample.servers [("1", Sample.from_boss)] in
  let w := run Sample.lib envs 4 0
               (start (boot (Sample.cfg 5 (Some 1%Z) [Sample.boss_rule]))) in
  running (self w) = true
  /\ is_alive 0 w = true
  /\ running (self (stop Sample.lib envs 2 w)) = false
  /\ is_alive 0 (stop Sample.lib envs 2 w) = false.
Proof.
  intros envs w.
  pose proof (C9_start_and_stop Sample.lib envs 2 w (le_n 2)) as H.
  cbv zeta in H. destruct H as (_ & _ & Hr & Hd & _).
  split; [reflexivity|]. split; [reflexivity|].
  split; [exact Hr | exact (proj1 (Hd 0 eq_refl))].
Defined.

(** * Further properties *)

(** ** Fetching *)

Lemma snd_bind {A B : Type} (m : io A) (f : A -> io B) :
  snd (bind m f) = match snd m with
                   | Ok a => snd (f a)
                   | Raised => Raised
                   end.
Proof.
  destruct m as [t [a|]]; simpl; [|reflexivity].
  now destruct (f a).
Qed.

Lemma fetch_all_result (env : cycle_env) (nums : list num)
    (acc : list (num * message)) :
  snd (fetch_all env nums acc) =
  if forallb (has_reply env) nums
  then Ok (acc ++ kept_messages env nums)%list
  else Raised.
Proof.
  revert acc. induction nums as [|n rest IH]; intros acc; simpl.
  - now rewrite app_nil_r.
  - unfold has_reply at 1.
    destruct (fetch_reply env n) as [[status msg]|]; simpl; [|reflexivity].
    destruct (status =? "OK"); simpl.
    + specialize (IH (acc ++ [(n, msg)])%list).
      destruct (fetch_all env rest _) as [evs r]. simpl in *.
      rewrite IH. destruct (forallb (has_reply env) rest); [|reflexivity].
      now rewrite <- app_assoc.
    + specialize (IH acc).
      destruct (fetch_all env rest acc) as [evs r]. simpl in *.
      exact IH.
Qed.

Lemma fetch_unseen_emails_result (env : cycle_env) (host : string) (port : Z)
    (user password folder : string) (fix_163 : bool) :
  snd (fetch_unseen_emails env host port user password folder fix_163) =
  Ok (if fetch_succeeds env
      then (Some Session,
            match search_reply env with
            | Some (status, data) =>
                if status =? "OK" then kept_messages env data else []
            | None => []
            end)
      else (None, [])).
Proof.
  unfold fetch_unseen_emails, fetch_succeeds, perform.
  destruct (connect_ok env); simpl; [|reflexivity].
  destruct (login_ok env); simpl; [|reflexivity].
  assert (Hid : exists ev,
             (if fix_163
              then try_except (if id_ok env
                               then ([Did ImapId], Ok tt)
                               else ([Failed ImapId], Raised))
                              (emit LogIdSkipped)
              else ret tt) = (ev, Ok tt)).
  { destruct fix_163; [destruct (id_ok env)|]; simpl; now eexists. }
  destruct Hid as (ev & ->). simpl.
  destruct (select_ok env); simpl; [|reflexivity].
  destruct (search_reply env) as [[status data]|]; simpl; [|reflexivity].
  destruct (status =? "OK"); simpl; [|reflexivity].
  pose proof (fetch_all_result env data []) as Hfa.
  destruct (fetch_all env data []) as [evf r]. simpl in *. subst r.
  now destruct (forallb (has_reply env) data).
Qed.

(** X1.  [fetch_unseen_emails] never raises.  It returns the session
    exactly when the connection, the login, the selection of the
    folder, the search and every FETCH returned; the list is then made
    of the messages whose FETCH status is OK, in the order of the search
    result (and is empty when the search status is not OK).  In every
    other case it returns no session and an empty list. *)
Theorem X1_fetch_unseen_emails_result :
  forall (env : cycle_env) (host : string) (port : Z)
         (user password folder : string) (fix_163 : bool),
    outcome (fetch_unseen_emails env host port user password folder fix_163)
    = Ok (if fetch_succeeds env
          then (Some Session,
                match search_reply env with
                | Some (status, data) =>
                    if status =? "OK" then kept_messages env data else []
                | None => []
                end)
          else (None, [])).
Proof. intros. apply fetch_unseen_emails_result. Qed.

(** X2.  The vendor handshake is not fatal: whether the ID command is
    sent, and whether it succeeds, changes neither the session nor the
    messages [fetch_unseen_emails] returns, when the servers otherwise
    answer alike. *)
Theorem X2_id_command_is_not_fatal :
  forall (env env' : cycle_env) (host : string) (port : Z)
         (user password folder : string) (fix_163 fix_163' : bool),
    connect_ok env' = connect_ok env ->
    login_ok env' = login_ok env ->
    select_ok env' = select_ok env ->
    search_reply env' = search_reply env ->
    (forall n, fetch_reply env' n = fetch_reply env n) ->
    outcome (fetch_unseen_emails env' host port user password folder fix_163')
    = outcome (fetch_unseen_emails env host port user password folder
                                   fix_163).
Proof.
  intros env env' host port user password folder f f' Hc Hl Hs Hq Hf.
  unfold outcome. rewrite !fetch_unseen_emails_result.
  assert (Hk : forall nums, kept_messages env' nums = kept_messages env nums).
  { induction nums as [|n rest IH]; simpl; [reflexivity|].
    now rewrite Hf, IH. }
  assert (Hr : forall nums,
             forallb (has_reply env') nums = forallb (has_reply env) nums).
  { induction nums as [|n rest IH]; simpl; [reflexivity|].
    unfold has_reply at 1 3. now rewrite Hf, IH. }
  unfold fetch_succeeds. rewrite Hc, Hl, Hs, Hq.
  destruct (search_reply env) as [[status data]|]; [|reflexivity].
  now rewrite Hk, Hr.
Qed.

Lemma X2_witness :
  let env := Sample.servers [("1", Sample.from_boss)] in
  let env' :=
    {| connect_ok := true; login_ok := true; id_ok := false;
       select_ok := true;
       search_reply := search_reply env;
       fetch_reply := fetch_reply env;
       store_ok := fun _ => true;
       close_ok := true; logout_ok := true;
       send_ok := fun _ => true |} in
  outcome (fetch_unseen_emails env' "imap.x" 993 "me@x" "secret" "INBOX" true)
  = outcome (fetch_unseen_emails env "imap.x" 993 "me@x" "secret" "INBOX"
                                 false).
Proof.
  intros env env'.
  exact (X2_id_command_is_not_fatal env env' "imap.x" 993 "me@x" "secret"
           "INBOX" false true eq_refl eq_refl eq_refl eq_refl
           (fun _ => eq_refl)).
Defined.

(** ** The loop over the fetched messages *)

Section LoopFacts.

Context (L : EmailLib) (env : cycle_env).

Lemma process_emails_counts (total keep : Z) (filters : list rule)
    (smtp : smtp_config) (mail : imap_session)
    (emails : list (num * message)) (fa fo : Z) :
  let run := process_emails L env total keep filters smtp mail emails fa fo in
  snd run = Ok ((fa + Z.of_nat (length (acted_on (fst run))))%Z,
                (fo + Z.of_nat (length (force_acked (fst run))))%Z).
Proof.
  revert fa fo. induction emails as [|[n msg] rest IH]; intros fa fo.
  - simpl. now rewrite !Z.add_0_r.
  - cbv zeta. rewrite process_emails_cons. cbv zeta.
    destruct (first_match L msg filters) as [r|].
    + destruct (_execute_action_shape L env msg r mail n smtp)
        as (evs & -> & Hf & Ha & _).
      simpl. rewrite acted_on_app, force_acked_app, Hf, Ha. simpl.
      rewrite (IH (fa + 1)%Z fo). f_equal. f_equal; lia.
    + destruct (total - (fa + fo) >? keep)%Z; [|apply IH].
      destruct (ack_email_shape env mail n msg) as (evs & -> & Hf & Ha & _).
      simpl. rewrite acted_on_app, force_acked_app, Hf, Ha. simpl.
      rewrite (IH fa (fo + 1)%Z). f_equal. f_equal; lia.
Qed.

Lemma process_emails_no_release (total keep : Z) (filters : list rule)
    (smtp : smtp_config) (mail : imap_session)
    (emails : list (num * message)) (fa fo : Z) :
  existsb releases
    (fst (process_emails L env total keep filters smtp mail emails fa fo))
  = false.
Proof.
  revert fa fo. induction emails as [|[n msg] rest IH]; intros fa fo.
  - reflexivity.
  - rewrite process_emails_cons. cbv zeta.
    destruct (first_match L msg filters) as [r|].
    + destruct (_execute_action_shape L env msg r mail n smtp)
        as (evs & -> & _ & _ & _ & Hr).
      simpl. now rewrite existsb_app, Hr, IH.
    + destruct (total - (fa + fo) >? keep)%Z; [|apply IH].
      destruct (ack_email_shape env mail n msg) as (evs & -> & _ & _ & _ & Hr).
      simpl. now rewrite existsb_app, Hr, IH.
Qed.

End LoopFacts.

(** X3.  The loop over the fetched messages never raises, whatever the
    relay and the store do.  When it ends, [forward_acked_count] is the
    number of messages that matched a rule, whether or not their action
    succeeded, and [force_acked_count] is the number of messages taken
    by the force-acknowledgment branch. *)
Theorem X3_loop_counters :
  forall (L : EmailLib) (env : cycle_env) (k : Z) (filters : list rule)
         (smtp : smtp_config) (mail : imap_session)
         (emails : list (num * message)),
    let run :=
      process_emails L env (Z.of_nat (length emails)) k filters smtp mail
                     emails 0 0 in
    outcome run
    = Ok (Z.of_nat (length (filter (fun e => negb (unmatched L filters e))
                              emails)),
          Z.of_nat (length (force_acked (events run)))).
Proof.
  intros L env k filters smtp mail emails run.
  unfold outcome, events. subst run. rewrite process_emails_counts.
  rewrite process_emails_acted_on, length_map. reflexivity.
Qed.

(** X4.  The backlog ceiling: with [keep_unseen_count = k >= 0], at
    most [k] of the messages that match no rule are left without a
    force-acknowledgment in a cycle. *)
Theorem X4_backlog_ceiling :
  forall (L : EmailLib) (env : cycle_env) (k : Z) (filters : list rule)
         (smtp : smtp_config) (mail : imap_session)
         (emails : list (num * message)),
    (0 <= k)%Z ->
    let evs :=
      events (process_emails L env (Z.of_nat (length emails)) k filters smtp
                             mail emails 0 0) in
    (Z.of_nat (length (filter (unmatched L filters) emails))
     - Z.of_nat (length (force_acked evs)) <= k)%Z.
Proof.
  intros L env k filters smtp mail emails Hk evs.
  subst evs. unfold events. rewrite process_emails_force_acked.
  set (m := Z.to_nat (Z.of_nat (length emails) - k - (0 + 0))).
  rewrite <- (firstn_skipn m emails) at 1.
  rewrite filter_app, length_app, length_map.
  pose proof (filter_length_le (unmatched L filters) (skipn m emails)).
  pose proof (length_skipn m emails). subst m. lia.
Qed.

Lemma X4_witness :
  let emails :=
    [("1", Sample.from_other); ("2", Sample.from_other);
     ("3", Sample.from_other)] in
  (Z.of_nat (length (filter (unmatched Sample.lib [Sample.boss_rule]) emails))
   - Z.of_nat
       (length
          (force_acked
             (events (process_emails Sample.lib (Sample.servers emails)
                        (Z.of_nat (length emails)) 1 [Sample.boss_rule]
                        Sample.smtp Session emails 0 0)))) <= 1)%Z.
Proof.
  intros emails.
  apply (X4_backlog_ceiling Sample.lib (Sample.servers emails) 1
           [Sample.boss_rule] Sample.smtp Session emails).
  lia.
Defined.

(** X5.  The two ends of the policy.  With a ceiling of zero or less,
    every message that matches no rule is force-acknowledged; with a
    ceiling at or above the number of fetched messages, none is. *)
Theorem X5_ceiling_extremes :
  forall (L : EmailLib) (env : cycle_env) (k : Z) (filters : list rule)
         (smtp : smtp_config) (mail : imap_session)
         (emails : list (num * message)),
    let evs :=
      events (process_emails L env (Z.of_nat (length emails)) k filters smtp
                             mail emails 0 0) in
    ((k <= 0)%Z ->
     force_acked evs = map fst (filter (unmatched L filters) emails))
    /\ ((Z.of_nat (length emails) <= k)%Z -> force_acked evs = []).
Proof.
  intros L env k filters smtp mail emails evs.
  subst evs. unfold events. rewrite process_emails_force_acked.
  split; intros Hk.
  - rewrite firstn_all2 by lia. reflexivity.
  - replace (Z.to_nat (Z.of_nat (length emails) - k - (0 + 0))) with 0%nat
      by lia.
    reflexivity.
Qed.

Lemma X5_witness :
  let emails :=
    [("1", Sample.from_other); ("2", Sample.from_boss);
     ("3", Sample.from_other)] in
  force_acked
    (events (process_emails Sample.lib (Sample.servers emails)
               (Z.of_nat (length emails)) 0 [Sample.boss_rule]
               Sample.smtp Session emails 0 0))
  = ["1"; "3"]
  /\ force_acked
       (events (process_emails Sample.lib (Sample.servers emails)
                  (Z.of_nat (length emails)) 3 [Sample.boss_rule]
                  Sample.smtp Session emails 0 0))
     = [].
Proof.
  intros emails. split.
  - refine (eq_trans
              (proj1 (X5_ceiling_extremes Sample.lib (Sample.servers emails)
                        0 [Sample.boss_rule] Sample.smtp Session emails) _)
              _).
    + lia.
    + reflexivity.
  - apply (proj2 (X5_ceiling_extremes Sample.lib (Sample.servers emails)
                    3 [Sample.boss_rule] Sample.smtp Session emails)).
    simpl. lia.
Defined.

(** ** The whole cycle *)

Lemma existsb_weaken {A : Type} (f g : A -> bool) (l : list A) :
  (forall x, f x = true -> g x = true) ->
  existsb g l = false -> existsb f l = false.
Proof.
  intros Hfg. induction l as [|x l IH]; simpl; [reflexivity|].
  intros H. apply orb_false_iff in H as [Hx Hl].
  rewrite (IH Hl), orb_false_r.
  destruct (f x) eqn:E; [|reflexivity].
  apply Hfg in E. congruence.
Qed.

Section CycleCases.

Context (L : EmailLib) (env : cycle_env).

(** The two ways [fetch_unseen_emails] ends, as [fetch_emails] sees
    them. *)
Lemma fetch_unseen_for_cases (cfg : config) :
  exists evs,
    forallb fetch_phase evs = true
    /\ ((fetch_succeeds env = true
         /\ exists emails,
              fetch_unseen_for env cfg = (evs, Ok (Some Session, emails)))
        \/ (fetch_succeeds env = false
            /\ fetch_unseen_for env cfg = (evs, Ok (None, [])))).
Proof.
  unfold fetch_unseen_for.
  match goal with
  | |- context [fetch_unseen_emails _ ?h ?p ?u ?pw ?f ?x] =>
      destruct (fetch_unseen_emails_shape env h p u pw f x)
        as (evs & r & Hs & Hq & _);
      pose proof (fetch_unseen_emails_result env h p u pw f x) as Hr
  end.
  exists evs. split; [exact Hq|].
  rewrite Hs in Hr |- *. simpl in Hr. injection Hr as ->.
  destruct (fetch_succeeds env); [left|right]; split; try reflexivity.
  now eexists.
Qed.

Lemma fetch_emails_outcome (cfg : config) :
  snd (fetch_emails L env cfg) =
  if (lower (transport (cfg_pull_email cfg)) =? "imap")
     && fetch_succeeds env
  then snd (close_connection env)
  else Ok tt.
Proof.
  destruct (lower (transport (cfg_pull_email cfg)) =? "imap") eqn:Ht.
  2:{ unfold fetch_emails. now rewrite Ht. }
  destruct (fetch_unseen_for_cases cfg)
    as (evs & _ & [[Hs [emails Hf]]|[Hs Hf]]); rewrite Hs; simpl.
  - destruct (fetch_emails_with_session L env cfg _ _ _ Ht Hf)
      as (body & returned & _ & ->).
    reflexivity.
  - now rewrite (fetch_emails_without_session L env cfg _ _ Ht Hf).
Qed.

End CycleCases.

(** X6.  An exception leaves [fetch_emails] exactly when the transport
    is IMAP, [fetch_unseen_emails] returned a session, and CLOSE or
    LOGOUT fails in the [finally] block.  No failure of the relay, of a
    STORE or of the fetch phase makes a cycle raise. *)
Theorem X6_cycle_raises_only_on_close :
  forall (L : EmailLib) (env : cycle_env) (cfg : config),
    outcome (fetch_emails L env cfg) = Raised
    <-> (lower (transport (cfg_pull_email cfg)) =? "imap") = true
        /\ fetch_succeeds env = true
        /\ (close_ok env = false \/ logout_ok env = false).
Proof.
  intros L env cfg. unfold outcome.
  rewrite fetch_emails_outcome, close_connection_eq.
  destruct (lower (transport (cfg_pull_email cfg)) =? "imap"),
           (fetch_succeeds env), (close_ok env), (logout_ok env);
    simpl; split; try discriminate; try tauto;
    intros (? & ? & [?|?]); discriminate.
Qed.

(** X7.  When CLOSE raises in the [finally] block, LOGOUT is not
    attempted: the cycle ends with the failed CLOSE and the exception
    goes to the polling loop. *)
Theorem X7_failed_close_skips_logout :
  forall (L : EmailLib) (env : cycle_env) (cfg : config),
    (lower (transport (cfg_pull_email cfg)) =? "imap") = true ->
    fetch_succeeds env = true ->
    close_ok env = false ->
    let evs := events (fetch_emails L env cfg) in
    In (Failed ImapClose) evs
    /\ existsb (fun e => match e with
                         | Did ImapLogout | Failed ImapLogout => true
                         | _ => false
                         end) evs = false
    /\ outcome (fetch_emails L env cfg) = Raised.
Proof.
  intros L env cfg Ht Hs Hc evs.
  destruct (fetch_unseen_for_cases env cfg)
    as (fevs & Hq & [[_ [emails Hf]]|[Hs' _]]); [|congruence].
  destruct (fetch_emails_with_session L env cfg _ _ _ Ht Hf)
    as (body & returned & Hb & He).
  destruct (process_fetched_returns L env cfg Session emails)
    as (body' & returned' & Hb' & _ & Hbody).
  rewrite Hb in Hb'. injection Hb' as <- <-.
  subst evs. unfold events, outcome. rewrite He.
  rewrite close_connection_eq, Hc. simpl.
  split; [|split; [|reflexivity]].
  - right. apply in_or_app. right. apply in_or_app. right. now left.
  - rewrite !existsb_app. simpl. rewrite orb_false_r.
    apply orb_false_iff. split.
    + apply (existsb_weaken _ releases).
      * intros [c|c|l]; try destruct c; simpl; congruence.
      * apply (fetch_phase_quiet _ Hq).
    + rewrite Hbody. simpl.
      assert (Hhead : match
                        match emails with
                        | [] => Logged LogNoNewEmails
                        | _ :: _ => Logged (LogProcessing (length emails))
                        end
                      with
                      | Did ImapLogout | Failed ImapLogout => true
                      | _ => false
                      end = false) by now destruct emails.
      rewrite Hhead. simpl.
      apply (existsb_weaken _ releases).
      * intros [c|c|l]; try destruct c; simpl; congruence.
      * apply process_emails_no_release.
Qed.

Lemma X7_witness :
  let env :=
    {| connect_ok := true; login_ok := true; id_ok := true;
       select_ok := true;
       search_reply := Some ("OK", []);
       fetch_reply := fun _ => None;
       store_ok := fun _ => true;
       close_ok := false; logout_ok := true;
       send_ok := fun _ => true |} in
  outcome (fetch_emails Sample.lib env
             (Sample.cfg 5 (Some 1%Z) [Sample.boss_rule]))
  = Raised.
Proof.
  intros env.
  exact (proj2 (proj2 (X7_failed_close_skips_logout
                         Sample.lib env
                         (Sample.cfg 5 (Some 1%Z) [Sample.boss_rule])
                         eq_refl eq_refl eq_refl))).
Defined.

(** X8.  The transport is compared without regard to letter case.  With
    any transport other than IMAP the cycle is one warning and nothing
    else: no call leaves the process and nothing is raised.  With IMAP
    the cycle always tries to connect, to the configured host and to
    the configured port, or to port 993 when the configuration has no
    port. *)
Theorem X8_transport_gate :
  forall (L : EmailLib) (env : cycle_env) (cfg : config),
    let transport_type := transport (cfg_pull_email cfg) in
    ((lower transport_type =? "imap") = false ->
     fetch_emails L env cfg
     = ([Logged (LogTransportNotImplemented transport_type)], Ok tt))
    /\ ((lower transport_type =? "imap") = true ->
        let host := imap_host (cfg_imap cfg) in
        let port := match imap_port (cfg_imap cfg) with
                    | Some p => p
                    | None => 993%Z
                    end in
        In (if connect_ok env
            then Did (ImapConnect host port)
            else Failed (ImapConnect host port))
           (events (fetch_emails L env cfg))).
Proof.
  intros L env cfg transport_type. split; intros Ht.
  - unfold fetch_emails. fold transport_type. now rewrite Ht.
  - cbv zeta.
    pose proof (eq_refl (fetch_unseen_for env cfg)) as Hf.
    unfold fetch_unseen_for at 2 in Hf.
    match type of Hf with
    | _ = fetch_unseen_emails _ ?h ?p ?u ?pw ?f ?x =>
        destruct (fetch_unseen_emails_shape env h p u pw f x)
          as (evs & r & Hs & _ & Hin & Hout)
    end.
    rewrite Hs in Hf.
    assert (Hev : In (if connect_ok env
                      then Did (ImapConnect (imap_host (cfg_imap cfg))
                                  (match imap_port (cfg_imap cfg) with
                                   | Some p => p
                                   | None => 993%Z
                                   end))
                      else Failed (ImapConnect (imap_host (cfg_imap cfg))
                                     (match imap_port (cfg_imap cfg) with
                                      | Some p => p
                                      | None => 993%Z
                                      end))) evs).
    { destruct (connect_ok env).
      - now apply Hin.
      - destruct (Hout eq_refl) as [-> _]. now left. }
    unfold events.
    destruct r as [[mail|] emails].
    + destruct (fetch_emails_with_session L env cfg _ _ _ Ht Hf)
        as (body & returned & _ & ->).
      simpl. right. apply in_or_app. now left.
    + rewrite (fetch_emails_without_session L env cfg _ _ Ht Hf).
      simpl. right. apply in_or_app. now left.
Qed.

Lemma X8_witness :
  fetch_emails Sample.lib Sample.unreachable
    {| cfg_pull_email :=
         {| transport := "POP3"; fetch_interval_seconds := 5;
            select_folder := "INBOX"; keep_unseen_count := None |};
       cfg_imap := Sample.imap;
       cfg_smtp := Sample.smtp;
       cfg_filters := None |}
  = ([Logged (LogTransportNotImplemented "POP3")], Ok tt).
Proof.
  exact (proj1 (X8_transport_gate Sample.lib Sample.unreachable
                  {| cfg_pull_email :=
                       {| transport := "POP3"; fetch_interval_seconds := 5;
                          select_folder := "INBOX";
                          keep_unseen_count := None |};
                     cfg_imap := Sample.imap;
                     cfg_smtp := Sample.smtp;
                     cfg_filters := None |}) eq_refl).
Defined.

(** ** Header sanitization *)

Lemma lstrip_head (s : string) :
  match lstrip s with
  | EmptyString => True
  | String c _ => isspace c = false
  end.
Proof.
  induction s as [|c t IH]; simpl; [exact I|].
  destruct (isspace c) eqn:E; [exact IH | exact E].
Qed.

Lemma lstrip_fixed (s : string) :
  match s with
  | EmptyString => True
  | String c _ => isspace c = false
  end ->
  lstrip s = s.
Proof. destruct s as [|c t]; simpl; [reflexivity|]. now intros ->. Qed.

Lemma rstrip_keeps_head (s : string) :
  match s with
  | EmptyString => True
  | String c _ => isspace c = false
  end ->
  match rstrip s with
  | EmptyString => True
  | String c _ => isspace c = false
  end.
Proof.
  destruct s as [|c t]; simpl; [trivial|].
  intros H. destruct (rstrip t); [now rewrite H|exact H].
Qed.

Lemma rstrip_cons (c : ascii) (t : string) :
  rstrip (String c t) =
  match rstrip t with
  | EmptyString => if isspace c then EmptyString else String c EmptyString
  | t' => String c t'
  end.
Proof. reflexivity. Qed.

Lemma rstrip_idempotent (s : string) : rstrip (rstrip s) = rstrip s.
Proof.
  induction s as [|c t IH]; [reflexivity|].
  rewrite rstrip_cons.
  destruct (rstrip t) as [|d t'] eqn:E.
  - destruct (isspace c) eqn:Ec; [reflexivity|].
    rewrite rstrip_cons. simpl. now rewrite Ec.
  - rewrite rstrip_cons, IH. reflexivity.
Qed.

Lemma strip_trimmed (s : string) : trimmed (strip s).
Proof.
  unfold trimmed, strip. split.
  - apply lstrip_fixed, rstrip_keeps_head, lstrip_head.
  - apply rstrip_idempotent.
Qed.

Lemma rstrip_fixed_cons (d : ascii) (t : string) :
  rstrip (String d t) = String d t <->
  (t = "" /\ isspace d = false) \/ (t <> "" /\ rstrip t = t).
Proof.
  simpl. destruct (rstrip t) as [|e t'] eqn:E.
  - destruct (isspace d) eqn:Ed.
    + split; [discriminate|].
      intros [[_ H]|[Hn H]]; [discriminate|]. congruence.
    + split.
      * intros H. injection H as <-. now left.
      * intros [[-> _]|[Hn H]]; [reflexivity|]. congruence.
  - split.
    + intros H. injection H as <-. right. split; [discriminate|reflexivity].
    + intros [[-> _]|[Hn H]]; [discriminate|]. now rewrite <- H.
Qed.

Lemma removed_to_nothing (c : ascii) (t : string) :
  isspace c = true -> rstrip t = t -> replace_char c "" t = "" -> t = "".
Proof.
  intros Hc. induction t as [|d u IH]; [reflexivity|].
  intros Hr Hrem. exfalso.
  simpl in Hrem. destruct (Ascii.eqb d c) eqn:E; [|discriminate].
  apply Ascii.eqb_eq in E. subst d.
  apply rstrip_fixed_cons in Hr as [[_ Hs]|[Hn Hu]]; [congruence|].
  apply Hn, IH; assumption.
Qed.

Lemma removal_keeps_trimmed (c : ascii) (s : string) :
  isspace c = true -> trimmed s -> trimmed (replace_char c "" s).
Proof.
  intros Hc [Hl Hr]. split.
  - apply lstrip_fixed. destruct s as [|d t]; [exact I|].
    assert (Hd : isspace d = false).
    { simpl in Hl. destruct (isspace d) eqn:E; [|reflexivity].
      exfalso.
      assert (Hlen : forall u, String.length (lstrip u) <= String.length u).
      { induction u as [|x u IH]; simpl; [lia|].
        destruct (isspace x); simpl; lia. }
      specialize (Hlen t). rewrite Hl in Hlen. simpl in Hlen. lia. }
    simpl. destruct (Ascii.eqb d c) eqn:E.
    + apply Ascii.eqb_eq in E. congruence.
    + exact Hd.
  - clear Hl. induction s as [|d t IH]; [reflexivity|].
    apply rstrip_fixed_cons in Hr as [[-> Hd]|[Hn Ht]].
    + simpl. destruct (Ascii.eqb d c) eqn:E; [reflexivity|].
      simpl. now rewrite Hd.
    + simpl. destruct (Ascii.eqb d c) eqn:E; [now apply IH|].
      apply rstrip_fixed_cons. right. split; [|now apply IH].
      intros Hrem. apply Hn. eapply removed_to_nothing; eassumption.
Qed.

Lemma removal_of_absent (c : ascii) (s : string) :
  mem_char c s = false -> replace_char c "" s = s.
Proof.
  induction s as [|d t IH]; simpl; [reflexivity|].
  intros H. apply orb_false_iff in H as [Hd Ht].
  now rewrite Hd, IH.
Qed.

(** X9.  [sanitize_header] is idempotent; its result has no blank at
    either end; and a value that has no blank at either end and no
    carriage return or line feed is returned unchanged. *)
Theorem X9_sanitize_header_idempotent :
  forall value : string,
    sanitize_header (sanitize_header value) = sanitize_header value
    /\ trimmed (sanitize_header value)
    /\ (trimmed value -> no_crlf value -> sanitize_header value = value).
Proof.
  assert (Hclean : forall v, trimmed v -> no_crlf v -> sanitize_header v = v).
  { intros v [Hl Hr] [Hlf Hcr]. unfold sanitize_header, strip.
    rewrite Hl, Hr, (removal_of_absent LF v Hlf).
    now apply removal_of_absent. }
  assert (Htrim : forall v, trimmed (sanitize_header v)).
  { intros v. unfold sanitize_header.
    apply removal_keeps_trimmed; [reflexivity|].
    apply removal_keeps_trimmed; [reflexivity|].
    apply strip_trimmed. }
  intros value. split; [|split].
  - apply Hclean; [apply Htrim | apply sanitize_header_no_crlf].
  - apply Htrim.
  - apply Hclean.
Qed.

Lemma X9_witness :
  sanitize_header "Weekly report" = "Weekly report".
Proof.
  apply (proj2 (proj2 (X9_sanitize_header_idempotent "Weekly report"))).
  - split; reflexivity.
  - split; reflexivity.
Defined.

(** ** Rules and actions *)

(** X10.  A rule whose [sender_email_contains] list holds the empty
    string matches every message, whatever its From field; a rule whose
    list is empty, or that has no such key, matches none. *)
Theorem X10_empty_condition_matches_all :
  forall (L : EmailLib) (r : rule) (msg : message),
    (forall conditions,
        sender_email_contains r = Some conditions ->
        In "" conditions ->
        _match_rule L msg r = true)
    /\ (sender_email_contains r = Some [] \/ sender_email_contains r = None ->
        _match_rule L msg r = false).
Proof.
  intros L r msg. split.
  - intros conds Hs Hin. apply _match_rule_iff.
    exists conds, "", "", (snd (parseaddr L (get_default msg "From" ""))).
    now repeat split.
  - intros H. destruct (_match_rule L msg r) eqn:E; [|reflexivity].
    apply _match_rule_iff in E as (conds & c & b & a & Hs & Hin & _).
    destruct H as [H|H]; rewrite H in Hs; [|discriminate].
    injection Hs as <-. destruct Hin.
Qed.

Lemma X10_witness :
  _match_rule Sample.lib Sample.from_other
    {| sender_email_contains := Some ["boss@co"; ""];
       action := Some "forward";
       forward_to := Some "me@x" |}
  = true.
Proof.
  apply (proj1 (X10_empty_condition_matches_all
                  Sample.lib
                  {| sender_email_contains := Some ["boss@co"; ""];
                     action := Some "forward";
                     forward_to := Some "me@x" |}
                  Sample.from_other) ["boss@co"; ""]).
  - reflexivity.
  - simpl. auto.
Defined.

Section ActionFacts.

Context (L : EmailLib) (env : cycle_env).

Lemma _execute_action_not_forwarding (msg : message) (r : rule)
    (mail : imap_session) (n : num) (smtp : smtp_config) :
  forwards r = false ->
  _execute_action L env msg r mail n smtp
  = ([Logged (if is_forward (action r)
              then LogNoForwardTo r
              else LogActionNotImplemented r)], Ok tt).
Proof.
  unfold forwards, _execute_action.
  destruct (is_forward (action r)); simpl; [|reflexivity].
  destruct (forward_to r) as [ft|]; [|reflexivity].
  now intros ->.
Qed.

(** Every STORE of the loop is for a message taken by the
    force-acknowledgment branch or for a matched message whose rule
    forwards. *)
Lemma process_emails_marked_seen_forwards (total keep : Z)
    (filters : list rule) (smtp : smtp_config) (mail : imap_session)
    (emails : list (num * message)) (fa fo : Z) (x : num) :
  let evs :=
    fst (process_emails L env total keep filters smtp mail emails fa fo) in
  In x (marked_seen evs) ->
  In x (force_acked evs)
  \/ exists msg r,
       In (x, msg) emails
       /\ first_match L msg filters = Some r
       /\ forwards r = true.
Proof.
  revert fa fo. induction emails as [|[n msg] rest IH]; intros fa fo.
  - simpl. tauto.
  - cbv zeta. rewrite process_emails_cons. cbv zeta.
    destruct (first_match L msg filters) as [r|] eqn:Hm.
    + destruct (forwards r) eqn:Hfw.
      * destruct (_execute_action_shape L env msg r mail n smtp)
          as (evs & -> & Hf & _ & Hs & _).
        simpl. rewrite marked_seen_app, force_acked_app, Hf. simpl.
        intros H. apply in_app_or in H as [H|H].
        -- right. exists msg, r. apply Hs in H. subst x.
           repeat split; simpl; auto.
        -- apply IH in H as [H|(msg' & r' & Hin & Hm' & Hf')]; [now left|].
           right. exists msg', r'. repeat split; simpl; auto.
      * rewrite (_execute_action_not_forwarding msg r mail n smtp Hfw).
        destruct (is_forward (action r)); simpl; intros H.
        all: apply IH in H as [H|(msg' & r' & Hin & Hm' & Hf')];
          [now left|];
          right; exists msg', r'; repeat split; simpl; auto.
    + destruct (total - (fa + fo) >? keep)%Z.
      * destruct (ack_email_shape env mail n msg) as (evs & -> & Hf & _ & Hs & _).
        simpl. rewrite marked_seen_app, force_acked_app, Hf. simpl.
        intros H. apply in_app_or in H as [H|H].
        -- left. left. symmetry. now apply Hs.
        -- apply IH in H as [H|(msg' & r' & Hin & Hm' & Hf')];
             [left; now right|].
           right. exists msg', r'. repeat split; simpl; auto.
      * intros H.
        apply IH in H as [H|(msg' & r' & Hin & Hm' & Hf')]; [now left|].
        right. exists msg', r'. repeat split; simpl; auto.
Qed.

End ActionFacts.

(** X11.  A message whose first matching rule does not forward (its
    action is not "forward", or it has no destination) only gets a
    warning: in a cycle whose message numbers are all different it is
    neither flagged \Seen nor force-acknowledged, so it is fetched and
    matched again in the next cycle. *)
Theorem X11_inert_rule_leaves_message_unseen :
  forall (L : EmailLib) (env : cycle_env) (k : Z) (filters : list rule)
         (smtp : smtp_config) (mail : imap_session)
         (emails : list (num * message)) (n : num) (msg : message)
         (r : rule),
    NoDup (map fst emails) ->
    In (n, msg) emails ->
    first_match L msg filters = Some r ->
    forwards r = false ->
    let evs :=
      events (process_emails L env (Z.of_nat (length emails)) k filters smtp
                             mail emails 0 0) in
    ~ In n (marked_seen evs) /\ ~ In n (force_acked evs)
    /\ In n (acted_on evs).
Proof.
  intros L env k filters smtp mail emails n msg r Hnd Hin Hm Hfw evs.
  assert (Hforce : ~ In n (force_acked evs)).
  { subst evs. unfold events. rewrite process_emails_force_acked.
    intros H. apply in_map_iff in H as ([n' msg'] & Heq & H).
    simpl in Heq. subst n'.
    apply filter_In in H as [H Hu]. apply in_firstn in H.
    rewrite (nodup_keys_functional _ _ _ _ Hnd H Hin) in Hu.
    unfold unmatched in Hu. simpl in Hu. now rewrite Hm in Hu. }
  split; [|split; [exact Hforce|]].
  - intros H. subst evs. unfold events in *.
    apply process_emails_marked_seen_forwards
      in H as [H|(msg' & r' & Hin' & Hm' & Hf')]; [now apply Hforce|].
    rewrite (nodup_keys_functional _ _ _ _ Hnd Hin' Hin) in Hm'.
    congruence.
  - subst evs. unfold events. rewrite process_emails_acted_on.
    apply in_map_iff. exists (n, msg). split; [reflexivity|].
    apply filter_In. split; [exact Hin|].
    unfold unmatched. simpl. now rewrite Hm.
Qed.

Lemma X11_witness :
  let inert :=
    {| sender_email_contains := Some ["boss@co"];
       action := Some "archive";
       forward_to := None |} in
  let emails := [("1", Sample.from_boss); ("2", Sample.from_other)] in
  ~ In "1"
      (marked_seen
         (events (process_emails Sample.lib (Sample.servers emails)
                    (Z.of_nat (length emails)) 0 [inert] Sample.smtp Session
                    emails 0 0))).
Proof.
  intros inert emails.
  refine (proj1 (X11_inert_rule_leaves_message_unseen
                   Sample.lib (Sample.servers emails) 0 [inert] Sample.smtp
                   Session emails "1" Sample.from_boss inert _ _ _ _)).
  - repeat constructor; simpl; intuition discriminate.
  - simpl. auto.
  - reflexivity.
  - reflexivity.
Defined.

(** X12.  When building the forwarded message raises ([formataddr]
    raises, a header value is refused, or a payload names an unknown
    codec), the forward action contacts neither the relay nor the
    mailbox: it logs the failure and returns, and the message stays
    unseen. *)
Theorem X12_compose_failure_touches_nothing :
  forall (L : EmailLib) (env : cycle_env) (msg : message) (r : rule)
         (mail : imap_session) (n : num) (smtp : smtp_config) (ft : string),
    is_forward (action r) = true ->
    forward_to r = Some ft ->
    truthy ft = true ->
    compose L msg smtp ft = None ->
    _execute_action L env msg r mail n smtp
    = ([Logged (LogActionFailed n
                  (sanitize_header (get_default msg "Subject" "No Subject")))],
       Ok tt).
Proof.
  intros L env msg r mail n smtp ft Ha Hf Ht Hc.
  rewrite (_execute_action_forward L env msg r mail n smtp ft Ha Hf Ht).
  now rewrite Hc.
Qed.

Lemma X12_witness :
  let crafted :=
    Sample.text_msg
      (String "034" ("a" ++ String LF (" b" ++ String "034" "@evil.com")))
      "Hello" "body" in
  marked_seen
    (events (_execute_action Sample.lib (Sample.servers [("1", crafted)])
               crafted Sample.boss_rule Session "1" Sample.smtp))
  = [].
Proof.
  intros crafted.
  rewrite (X12_compose_failure_touches_nothing
             Sample.lib (Sample.servers [("1", crafted)]) crafted
             Sample.boss_rule Session "1" Sample.smtp "me@x"
             eq_refl eq_refl eq_refl eq_refl).
  reflexivity.
Defined.

(** ** Decoding the parts *)

Lemma collect_parts_raises (L : EmailLib) (parts : list message)
    (text html : option string) :
  collect_parts L parts text html = None <->
  existsb (fun p => eligible p && decode_fails L p) parts = true.
Proof.
  revert text html. induction parts as [|p rest IH]; intros text html.
  - simpl. split; discriminate.
  - rewrite collect_parts_cons. simpl.
    destruct (eligible p) eqn:El; simpl; [|apply IH].
    unfold decode_fails. unfold eligible in El.
    destruct (get_payload p) as [[|b payload]|];
      try (rewrite andb_false_r in El; discriminate).
    destruct (decode L _ (b :: payload)) as [decoded|]; simpl.
    + destruct (_ && is_none text); [apply IH|].
      destruct (_ && is_none html); apply IH.
    + split; reflexivity.
Qed.

(** X13.  Extracting the contents raises exactly when some part that
    the loop decodes names an unknown codec: for a multipart message,
    any part that is not flagged as an attachment and has a non-empty
    payload, whether or not its type is text/plain or text/html and
    whether or not a content was already kept; for a single-part
    message, its own non-empty payload. *)
Theorem X13_unknown_codec_fails_the_forward :
  forall (L : EmailLib) (msg : message),
    extract_contents L msg = None <->
    (if is_multipart msg
     then existsb (fun p => eligible p && decode_fails L p) (walk msg)
     else decode_fails L msg) = true.
Proof.
  intros L msg. unfold extract_contents.
  destruct (is_multipart msg); [apply collect_parts_raises|].
  unfold decode_fails.
  destruct (get_payload msg) as [[|b payload]|];
    try (split; discriminate).
  destruct (decode L _ (b :: payload)) as [decoded|]; simpl.
  - destruct (content_type (head msg) =? "text/html"); split; discriminate.
  - split; reflexivity.
Qed.

(** ** Threads *)

Lemma length_set_nth {A : Type} (t : nat) (x : A) (l : list A) :
  length (set_nth t x l) = length l.
Proof.
  revert t. induction l as [|y l IH]; intros [|t]; simpl; auto.
Qed.

Lemma nth_error_set_nth_other {A : Type} (t t' : nat) (x : A) (l : list A) :
  t' <> t -> nth_error (set_nth t x l) t' = nth_error l t'.
Proof.
  revert t t'. induction l as [|y l IH]; intros [|t] [|t'] H; simpl;
    try reflexivity; try congruence.
  apply IH. congruence.
Qed.

Section ThreadFrame.

Context (L : EmailLib) (envs : nat -> cycle_env).

(** A step of thread [t] leaves the poller object and the other
    threads as they are. *)
Lemma _poll_loop_frame (t : nat) (w : world) :
  self (_poll_loop L envs t w) = self w
  /\ length (threads (_poll_loop L envs t w)) = length (threads w)
  /\ (forall t', t' <> t ->
        nth_error (threads (_poll_loop L envs t w)) t'
        = nth_error (threads w) t')
  /\ (is_alive t (_poll_loop L envs t w) = true -> is_alive t w = true).
Proof.
  unfold _poll_loop, is_alive.
  destruct (nth_error (threads w) t) as [pc|] eqn:Ht.
  2:{ rewrite Ht. repeat split; auto. }
  assert (Hgen : forall pc' secs cycles evs,
             let w' := {| self := self w;
                          threads := set_nth t pc' (threads w);
                          clock := clock w + secs;
                          cycle_no := cycle_no w + cycles;
                          trace := trace w ++ evs |} in
             self w' = self w
             /\ length (threads w') = length (threads w)
             /\ (forall t', t' <> t ->
                   nth_error (threads w') t' = nth_error (threads w) t')).
  { intros pc' secs cycles evs. simpl. repeat split.
    - apply length_set_nth.
    - intros t' Hne. now apply nth_error_set_nth_other. }
  destruct pc as [| |[|k]|].
  - destruct (Hgen AtLoopHead 0 0 [Logged LogPollerStarted]) as (? & ? & ?).
    repeat split; auto.
  - destruct (running (self w)).
    + destruct (fetch_emails L (envs (cycle_no w)) (self_config (self w)))
        as [evs [u|]].
      * destruct (Hgen (Sleeping (Z.to_nat (fetch_interval (self w)))) 0 1 evs)
          as (? & ? & ?).
        repeat split; auto.
      * destruct (Hgen AtLoopHead 60 1
                    (evs ++ [Logged LogPollingError; Did (Sleep 60)])%list)
          as (? & ? & ?).
        repeat split; auto.
    + destruct (Hgen Exited 0 0 []) as (? & ? & ?).
      repeat split; auto.
  - destruct (Hgen AtLoopHead 0 0 []) as (? & ? & ?).
    repeat split; auto.
  - destruct (running (self w)); simpl.
    + destruct (Hgen (Sleeping k) 1 0 [Did (Sleep 1)]) as (? & ? & ?).
      repeat split; auto.
    + destruct (Hgen AtLoopHead 0 0 []) as (? & ? & ?).
      repeat split; auto.
  - rewrite Ht. repeat split; auto.
Qed.

Lemma run_frame (n t : nat) (w : world) :
  self (run L envs n t w) = self w
  /\ length (threads (run L envs n t w)) = length (threads w)
  /\ (forall t', t' <> t ->
        nth_error (threads (run L envs n t w)) t' = nth_error (threads w) t').
Proof.
  revert w. induction n as [|n IH]; intros w; simpl; [now repeat split|].
  destruct (IH (_poll_loop L envs t w)) as (Hs & Hl & Ho).
  destruct (_poll_loop_frame t w) as (Hs' & Hl' & Ho' & _).
  repeat split; try congruence.
  intros t' Hne. rewrite Ho, Ho'; auto.
Qed.

Lemma join_frame (p t : nat) (w : world) :
  self (join L envs p t w) = self w
  /\ length (threads (join L envs p t w)) = length (threads w)
  /\ (forall t', t' <> t ->
        nth_error (threads (join L envs p t w)) t' = nth_error (threads w) t').
Proof.
  revert w. induction p as [|p IH]; intros w; [now repeat split|].
  rewrite join_S. destruct (is_alive t w); [|now repeat split].
  destruct (IH (_poll_loop L envs t w)) as (Hs & Hl & Ho).
  destruct (_poll_loop_frame t w) as (Hs' & Hl' & Ho' & _).
  repeat split; try congruence.
  intros t' Hne. rewrite Ho, Ho'; auto.
Qed.



End ThreadFrame.


Lemma is_alive_app_entry (t : nat) (ths : list worker) :
  match nth_error (ths ++ [Entry]) t with
  | Some Exited | None => false
  | Some _ => true
  end = true ->
  t = length ths
  \/ match nth_error ths t with
     | Some Exited | None => false
     | Some _ => true
     end = true.
Proof.
  intros H. destruct (Nat.lt_ge_cases t (length ths)) as [Hlt|Hge].
  - right. now rewrite nth_error_app1 in H.
  - left. rewrite nth_error_app2 in H by exact Hge.
    destruct (t - length ths) as [|[|d]] eqn:E; simpl in H;
      try discriminate; lia.
Qed.

Lemma stop_other_threads (L : EmailLib) (envs : nat -> cycle_env)
    (patience : nat) (w : world) (t : nat) :
  thread (self w) <> Some t ->
  nth_error (threads (stop L envs patience w)) t = nth_error (threads w) t.
Proof.
  intros Hne.
  set (w2 := {| self := set_running false (self w);
                threads := threads w;
                clock := clock w;
                cycle_no := cycle_no w;
                trace := trace w ++ [Logged LogStopping] |}).
  assert (Hstop : stop L envs patience w
                  = log LogStopped
                      match thread (self w) with
                      | Some t1 =>
                          if is_alive t1 w2 then join L envs patience t1 w2
                          else w2
                      | None => w2
                      end) by reflexivity.
  rewrite Hstop.
  change (threads (log LogStopped ?x)) with (threads x).
  destruct (thread (self w)) as [t1|]; [|reflexivity].
  destruct (is_alive t1 w2); [|reflexivity].
  destruct (join_frame L envs patience t1 w2) as (_ & _ & Ho).
  apply Ho. congruence.
Qed.

(** The invariant behind X15: a thread that is alive is the thread of
    the poller, and the flag is set. *)
Lemma alive_thread_is_the_poller_thread (L : EmailLib)
    (envs : nat -> cycle_env) (w : world) :
  reachable L envs w ->
  forall t, is_alive t w = true ->
            thread (self w) = Some t /\ running (self w) = true.
Proof.
  induction 1 as [cfg | w Hw IH | patience w Hp Hw IH | t0 w Hw IH];
    intros t Ha.
  - unfold is_alive in Ha. simpl in Ha. now destruct t.
  - unfold start in *. destruct (running (self w)) eqn:Hr.
    + apply IH in Ha. destruct Ha as [Ha _]. simpl.
      split; [exact Ha|exact Hr].
    + unfold is_alive in Ha. simpl in Ha.
      apply is_alive_app_entry in Ha as [->|Ha]; [now split|].
      apply IH in Ha. destruct Ha. congruence.
  - exfalso.
    destruct (stop_facts L envs patience w Hp) as (_ & _ & Hd).
    destruct (thread (self w)) as [t1|] eqn:Hth.
    + destruct (Nat.eq_dec t t1) as [->|Hne].
      * rewrite (Hd t1 eq_refl) in Ha. discriminate.
      * unfold is_alive in Ha.
        rewrite stop_other_threads in Ha by (rewrite Hth; congruence).
        destruct (IH t Ha) as [Hth' _]. congruence.
    + unfold is_alive in Ha.
      rewrite stop_other_threads in Ha by (rewrite Hth; discriminate).
      destruct (IH t Ha) as [Hth' _]. congruence.
  - destruct (_poll_loop_frame L envs t0 w) as (Hs & _ & Ho & Hal).
    rewrite Hs. apply IH.
    destruct (Nat.eq_dec t t0) as [->|Hne]; [now apply Hal|].
    unfold is_alive in Ha |- *. now rewrite (Ho t Hne) in Ha.
Qed.

(** X15.  Whatever sequence of [start], [stop] and steps of the threads
    the process goes through, at most one polling thread is alive at any
    time; it is the thread the poller holds, and the flag is set while
    it lives. *)
Theorem X15_at_most_one_polling_thread :
  forall (L : EmailLib) (envs : nat -> cycle_env) (w : world),
    reachable L envs w ->
    forall t t',
      is_alive t w = true ->
      is_alive t' w = true ->
      t = t' /\ thread (self w) = Some t /\ running (self w) = true.
Proof.
  intros L envs w Hw t t' Ht Ht'.
  destruct (alive_thread_is_the_poller_thread L envs w Hw t Ht) as [H1 H2].
  destruct (alive_thread_is_the_poller_thread L envs w Hw t' Ht') as [H1' _].
  repeat split; congruence.
Qed.

Lemma X15_witness :
  let envs := fun _ : nat => Sample.unreachable in
  let cfg := Sample.cfg 5 (Some 1%Z) [Sample.boss_rule] in
  let w := start (_poll_loop Sample.lib envs 0
                    (start (stop Sample.lib envs 2
                              (_poll_loop Sample.lib envs 0
                                 (start (boot cfg)))))) in
  length (threads w) = 2
  /\ forall t, is_alive t w = true -> t = 1.
Proof.
  intros envs cfg w.
  assert (Hw : reachable Sample.lib envs w).
  { repeat constructor. }
  split; [reflexivity|].
  intros t Ht.
  exact (proj1 (X15_at_most_one_polling_thread Sample.lib envs w Hw
                  t 1 Ht eq_refl)).
Defined.

(** X16.  After a cycle that returns, the thread sleeps in steps of one
    second, [fetch_interval] of them while the flag stays set, and is
    then back at the [while] test; with an interval of zero or less it
    does not sleep at all, and the next cycle follows at once. *)
Theorem X16_interval_between_cycles :
  forall (L : EmailLib) (envs : nat -> cycle_env) (t : nat) (w : world),
    nth_error (threads w) t = Some AtLoopHead ->
    running (self w) = true ->
    let cycle := fetch_emails L (envs (cycle_no w)) (self_config (self w)) in
    outcome cycle = Ok tt ->
    let n := Z.to_nat (fetch_interval (self w)) in
    let w' := run L envs (1 + n + 1) t w in
    nth_error (threads w') t = Some AtLoopHead
    /\ cycle_no w' = cycle_no w + 1
    /\ clock w' = clock w + n
    /\ trace w' = (trace w ++ events cycle ++ repeat (Did (Sleep 1)) n)%list
    /\ ((fetch_interval (self w) <= 0)%Z -> clock w' = clock w).
Proof.
  intros L envs t w Ht Hr cycle Ho n w'.
  assert (Hstep : _poll_loop L envs t w
                  = {| self := self w;
                       threads := set_nth t (Sleeping n) (threads w);
                       clock := clock w + 0;
                       cycle_no := cycle_no w + 1;
                       trace := trace w ++ events cycle |}).
  { unfold _poll_loop. rewrite Ht, Hr. fold cycle.
    unfold outcome in Ho. unfold events.
    destruct cycle as [evs r]. simpl in Ho. now subst r. }
  subst w'. change (1 + n + 1) with (S (n + 1)). simpl run.
  rewrite Hstep, run_plus.
  match goal with |- context [run L envs n t ?w1] =>
    pose proof (run_sleeping L envs n t w1) as Hsleep end.
  simpl in Hsleep.
  destruct (Hsleep (nth_error_set_nth _ _ _ _ Ht) Hr)
    as (Hs & Hn & Hcl & Hcy & Htr).
  simpl run. unfold _poll_loop at 1 2 3 4 5. rewrite Hn. simpl.
  rewrite (nth_error_set_nth _ _ _ _ Hn), Hcy, Hcl, Htr.
  repeat split; try lia.
  now rewrite app_nil_r, <- app_assoc.
Qed.

Lemma X16_witness :
  let envs := fun _ : nat => Sample.servers [("1", Sample.from_boss)] in
  let w := run Sample.lib envs 1 0
               (start (boot (Sample.cfg 0 (Some 1%Z) [Sample.boss_rule]))) in
  cycle_no (run Sample.lib envs (1 + 0 + 1) 0 w) = cycle_no w + 1
  /\ clock (run Sample.lib envs (1 + 0 + 1) 0 w) = clock w.
Proof.
  intros envs w.
  pose proof (X16_interval_between_cycles Sample.lib envs 0 w
                eq_refl eq_refl eq_refl) as H.
  cbv zeta in H. destruct H as (_ & Hc & _ & _ & Hz).
  split; [exact Hc|].
  apply Hz. simpl. lia.
Defined.

(** X17.  [main]: whenever the interrupt arrives, that is after any
    number of steps of the polling thread, the program ends with the
    flag cleared and with the one polling thread it started exited;
    nothing that thread could do afterwards changes anything. *)
Theorem X17_main_stops_the_poller :
  forall (L : EmailLib) (envs : nat -> cycle_env) (cfg : config)
         (steps patience : nat),
    2 <= patience ->
    let final := main L envs cfg steps patience in
    running (self final) = false
    /\ length (threads final) = 1
    /\ (forall t, is_alive t final = false)
    /\ (forall n t, run L envs n t final = final).
Proof.
  intros L envs cfg steps patience Hp final.
  set (started := start (boot cfg)).
  set (interrupted := run L envs steps 0 started).
  assert (Hfinal : final = stop L envs patience interrupted) by reflexivity.
  destruct (run_frame L envs steps 0 started) as (Hs & Hl & _).
  fold interrupted in Hs, Hl.
  assert (Hth : thread (self interrupted) = Some 0) by now rewrite Hs.
  destruct (stop_facts L envs patience interrupted Hp) as (Hr & _ & Hd).
  rewrite <- Hfinal in Hr, Hd.
  assert (Hlen : length (threads final) = 1).
  { rewrite Hfinal. unfold stop. simpl. rewrite Hth.
    match goal with
    | |- context [is_alive 0 ?x] => set (w2 := x)
    end.
    destruct (is_alive 0 w2).
    - destruct (join_frame L envs patience 0 w2) as (_ & Hl2 & _).
      rewrite Hl2. exact Hl.
    - exact Hl. }
  assert (Hdead : forall t, is_alive t final = false).
  { intros [|t]; [now apply Hd|].
    unfold is_alive.
    destruct (threads final) as [|x [|y l]]; try discriminate.
    now destruct t. }
  repeat split; auto.
  intros n t. apply run_exited, Hdead.
Qed.

Lemma X17_witness :
  let envs := fun _ : nat => Sample.servers [("1", Sample.from_boss)] in
  running (self (main Sample.lib envs
                   (Sample.cfg 5 (Some 1%Z) [Sample.boss_rule]) 4 2))
  = false.
Proof.
  intros envs.
  exact (proj1 (X17_main_stops_the_poller
                  Sample.lib envs
                  (Sample.cfg 5 (Some 1%Z) [Sample.boss_rule]) 4 2
                  (le_n 2))).
Defined.

(** ** What is sent *)

Section SendFacts.

Context (L : EmailLib) (env : cycle_env).

Lemma _execute_action_sends_at_most_once (msg : message) (r : rule)
    (mail : imap_session) (n : num) (smtp : smtp_config) :
  length (sent (fst (_execute_action L env msg r mail n smtp))) <= 1.
Proof.
  destruct (forwards r) eqn:Hfw.
  - unfold forwards in Hfw. apply andb_true_iff in Hfw as [Ha Hf].
    destruct (forward_to r) as [ft|] eqn:Hft; [|discriminate].
    rewrite (_execute_action_forward L env msg r mail n smtp ft Ha Hft Hf).
    rewrite forward_email_eq, ack_email_eq.
    destruct (compose L msg smtp ft) as [fwd|]; simpl; [|lia].
    destruct (send_ok env fwd), (store_ok env n); simpl; lia.
  - rewrite (_execute_action_not_forwarding L env msg r mail n smtp Hfw).
    simpl. lia.
Qed.

Lemma process_emails_sent_bound (total keep : Z) (filters : list rule)
    (smtp : smtp_config) (mail : imap_session)
    (emails : list (num * message)) (fa fo : Z) :
  let evs :=
    fst (process_emails L env total keep filters smtp mail emails fa fo) in
  length (sent evs) <= length (acted_on evs).
Proof.
  revert fa fo. induction emails as [|[n msg] rest IH]; intros fa fo.
  - simpl. lia.
  - cbv zeta. rewrite process_emails_cons. cbv zeta.
    destruct (first_match L msg filters) as [r|].
    + pose proof (_execute_action_sends_at_most_once msg r mail n smtp) as H1.
      destruct (_execute_action_shape L env msg r mail n smtp)
        as (evs & He & _ & Ha & _).
      rewrite He in H1 |- *. simpl in H1 |- *.
      rewrite sent_app, acted_on_app, Ha, !length_app. simpl.
      specialize (IH (fa + 1)%Z fo). simpl in IH. lia.
    + destruct (total - (fa + fo) >? keep)%Z; [|apply IH].
      rewrite ack_email_eq. simpl.
      specialize (IH fa (fo + 1)%Z). simpl in IH.
      destruct (store_ok env n); simpl; exact IH.
Qed.

End SendFacts.

(** X18.  In a cycle at most one message is handed to the relay for
    each message that matched a rule, and none for the others.  In
    particular, with an empty rule list nothing is ever sent: every
    message goes through the force-acknowledgment policy. *)
Theorem X18_sends_only_for_matched_messages :
  forall (L : EmailLib) (env : cycle_env) (k : Z) (filters : list rule)
         (smtp : smtp_config) (mail : imap_session)
         (emails : list (num * message)),
    let evs :=
      events (process_emails L env (Z.of_nat (length emails)) k filters smtp
                             mail emails 0 0) in
    length (sent evs)
    <= length (filter (fun e => negb (unmatched L filters e)) emails)
    /\ (filters = [] ->
        sent evs = []
        /\ acted_on evs = []
        /\ force_acked evs
           = map fst (firstn (Z.to_nat (Z.of_nat (length emails) - k))
                        emails)).
Proof.
  intros L env k filters smtp mail emails evs.
  assert (Hb : length (sent evs)
               <= length (filter (fun e => negb (unmatched L filters e))
                            emails)).
  { subst evs. unfold events.
    pose proof (process_emails_sent_bound L env (Z.of_nat (length emails)) k
                  filters smtp mail emails 0 0) as H.
    cbv zeta in H. rewrite process_emails_acted_on, length_map in H.
    exact H. }
  split; [exact Hb|].
  intros ->.
  assert (Hnone : forall l : list (num * message),
             filter (unmatched L []) l = l).
  { intros l. apply filter_all. apply Forall_forall. now intros e _. }
  assert (Hmatched : filter (fun e => negb (unmatched L [] e)) emails = []).
  { clear. induction emails as [|e rest IH]; simpl; auto. }
  rewrite Hmatched in Hb. simpl in Hb.
  split; [|split].
  - now destruct (sent evs); [|simpl in Hb; lia].
  - subst evs. unfold events.
    now rewrite process_emails_acted_on, Hmatched.
  - subst evs. unfold events.
    rewrite process_emails_force_acked, Hnone.
    now replace (Z.of_nat (length emails) - k - (0 + 0))%Z
      with (Z.of_nat (length emails) - k)%Z by lia.
Qed.

Lemma X18_witness :
  let emails := [("1", Sample.from_boss); ("2", Sample.from_other)] in
  sent (events (process_emails Sample.lib (Sample.servers emails)
                  (Z.of_nat (length emails)) 1 [] Sample.smtp Session
                  emails 0 0))
  = [].
Proof.
  intros emails.
  exact (proj1 (proj2 (X18_sends_only_for_matched_messages
                         Sample.lib (Sample.servers emails) 1 []
                         Sample.smtp Session emails) eq_refl)).
Defined.




(** ** The thread while the flag is set *)

(** X20.  A polling thread returns only when it reads the flag
    cleared: while the flag is set, no outcome of a cycle, exception
    included, ends the thread, however many steps it takes. *)
Theorem X20_thread_survives_failing_cycles :
  forall (L : EmailLib) (envs : nat -> cycle_env) (n t : nat) (w : world),
    is_alive t w = true ->
    running (self w) = true ->
    is_alive t (run L envs n t w) = true
    /\ running (self (run L envs n t w)) = true.
Proof.
  intros L envs n t. induction n as [|n IH]; intros w Ha Hr; simpl.
  - now split.
  - destruct (_poll_loop_frame L envs t w) as (Hs & _).
    apply IH; [|now rewrite Hs].
    unfold is_alive in Ha |- *. unfold _poll_loop. rewrite Hr.
    destruct (nth_error (threads w) t) as [pc|] eqn:Ht; [|discriminate].
    destruct pc as [| |[|k]|]; try discriminate; simpl;
      try (now rewrite (nth_error_set_nth _ _ _ _ Ht)).
    destruct (fetch_emails L (envs (cycle_no w)) (self_config (self w)))
      as [evs [u|]]; simpl; now rewrite (nth_error_set_nth _ _ _ _ Ht).
Qed.

Lemma X20_witness :
  let envs := fun _ : nat =>
    {| connect_ok := true; login_ok := true; id_ok := true;
       select_ok := true;
       search_reply := Some ("OK", []);
       fetch_reply := fun _ => None;
       store_ok := fun _ => true;
       close_ok := false; logout_ok := true;
       send_ok := fun _ => true |} in
  let w := start (boot (Sample.cfg 5 (Some 1%Z) [Sample.boss_rule])) in
  is_alive 0 (run Sample.lib envs 7 0 w) = true.
Proof.
  intros envs w.
  exact (proj1 (X20_thread_survives_failing_cycles Sample.lib envs 7 0 w
                  eq_refl eq_refl)).
Defined.


